(** * Schema-Genrator-sj: the JSON extraction cascade and the diagram builders

    A shallow embedding of [extract_json_from_response], [generate_schema],
    [create_er_diagram] (src/app.py) and of their counterparts in
    src/app2.py ([create_mermaid_diagram] there), with the properties the
    specification states about them.

    Conventions of the embedding:
    - a Python [str] is a list of Unicode code points ([N]);
    - a Python object that comes out of [json.loads] is a [value];
    - a Python computation that may raise is a [result]: [Ok v] when it
      evaluates to [v], [Raise e] when exception [e] escapes it;
    - [json.loads] is a parameter of the extraction functions; a concrete
      decoder, [Json.loads], is given for the worked examples. *)

From Stdlib Require Import String Ascii NArith ZArith Bool Arith Lia List.
Import ListNotations.

Set Implicit Arguments.

(* ================================================================== *)
(** * Python strings *)
(* ================================================================== *)

Module Py.

Definition str := list N.

(** A string literal of the source, as code points. *)
Definition lit (s : string) : str := map N_of_ascii (list_ascii_of_string s).

(** A one-character literal of the source. *)
Definition chr (a : ascii) : N := N_of_ascii a.

(** The line feed, written backslash-n in the source. *)
Definition nl : N := 10.

(** A literal of the source in which the apostrophe stands for the double
    quote, for JSON text. *)
Definition dq (s : string) : str :=
  map (fun c => if N.eqb c 39 then 34%N else c) (lit s).

Definition len (s : str) : Z := Z.of_nat (length s).

Fixpoint str_eqb (a b : str) : bool :=
  match a, b with
  | [], [] => true
  | x :: a', y :: b' => N.eqb x y && str_eqb a' b'
  | _, _ => false
  end.

(** [str.isspace] on one character: the code points that [str.strip()]
    removes and that [\s] matches in a [str] pattern. *)
Definition isspace (c : N) : bool :=
  ((9 <=? c) && (c <=? 13) || (28 <=? c) && (c <=? 32)
   || (c =? 133) || (c =? 160) || (c =? 5760)
   || (8192 <=? c) && (c <=? 8202)
   || (c =? 8232) || (c =? 8233) || (c =? 8239) || (c =? 8287)
   || (c =? 12288))%N.

Fixpoint lstrip (s : str) : str :=
  match s with
  | c :: t => if isspace c then lstrip t else s
  | [] => []
  end.

Definition rstrip (s : str) : str := rev (lstrip (rev s)).

(** [s.strip()] *)
Definition strip (s : str) : str := rstrip (lstrip s).

Fixpoint find_from (c : N) (s : str) (i : Z) : Z :=
  match s with
  | [] => (-1)%Z
  | x :: t => if N.eqb x c then i else find_from c t (i + 1)%Z
  end.

(** [s.find(c)] for a one-character [c]: the lowest index, or -1. *)
Definition find (s : str) (c : N) : Z := find_from c s 0.

Fixpoint rfind_from (c : N) (s : str) (i : Z) (best : Z) : Z :=
  match s with
  | [] => best
  | x :: t => rfind_from c t (i + 1)%Z (if N.eqb x c then i else best)
  end.

(** [s.rfind(c)] for a one-character [c]: the highest index, or -1. *)
Definition rfind (s : str) (c : N) : Z := rfind_from c s 0 (-1).

(** How a slice bound is read: a negative bound counts from the end, and
    every bound is clamped to [0 .. len]. *)
Definition clamp (n i : Z) : Z :=
  if (i <? 0)%Z then Z.max 0 (i + n) else Z.min i n.

(** [s[i:j]] *)
Definition slice (s : str) (i j : Z) : str :=
  let a := clamp (len s) i in
  let b := clamp (len s) j in
  firstn (Z.to_nat (b - a)) (skipn (Z.to_nat a) s).

(** [s.split(sep)] for a one-character [sep]. *)
Fixpoint split (sep : N) (s : str) : list str :=
  match s with
  | [] => [[]]
  | c :: t =>
      if N.eqb c sep then [] :: split sep t
      else match split sep t with
           | l :: ls => (c :: l) :: ls
           | [] => [[c]]
           end
  end.

(** [sep.join(parts)] *)
Fixpoint join (sep : str) (parts : list str) : str :=
  match parts with
  | [] => []
  | [p] => p
  | p :: ps => p ++ sep ++ join sep ps
  end.

Fixpoint startswith (s p : str) : bool :=
  match p, s with
  | [], _ => true
  | x :: p', y :: s' => N.eqb x y && startswith s' p'
  | _ :: _, [] => false
  end.

Definition endswith (s p : str) : bool := startswith (rev s) (rev p).

(** [s.replace(a, b)] for one-character [a] and [b]. *)
Definition replace (s : str) (a b : N) : str :=
  map (fun c => if N.eqb c a then b else c) s.

End Py.

Import Py.

(* ================================================================== *)
(** * Regular expressions ([re]) *)
(* ================================================================== *)

(** The fragment of [re] syntax the two patterns of the program use, with
    backtracking in the order [re] tries alternatives.  Both patterns have
    one capturing group, so a match carries one optional capture. *)
Module Re.

Inductive regex : Type :=
| Eps                      (* the empty pattern *)
| Lit (c : N)              (* a literal character *)
| Dot                      (* [.] under [re.DOTALL] *)
| Space                    (* [\s] *)
| OneOf (cs : list N)      (* [[...]] *)
| Cat (a b : regex)        (* [ab] *)
| Opt (a : regex)          (* [a?] *)
| Star (a : regex)         (* [a*], greedy *)
| StarLazy (a : regex)     (* [a*?] *)
| Group (a : regex).       (* [(a)], group 1 *)

Definition orelse {R} (x y : option R) : option R :=
  match x with Some _ => x | None => y end.

Section Matcher.
Variable R : Type.

(** [rmatch r s g k]: match [r] at the head of [s] with capture [g], and
    hand what is left of [s] and the capture to [k]; a [None] from [k]
    makes the matcher backtrack. *)
Fixpoint rmatch (r : regex) (s : str) (g : option str)
         (k : str -> option str -> option R) {struct r} : option R :=
  match r with
  | Eps => k s g
  | Lit c =>
      match s with
      | x :: t => if N.eqb x c then k t g else None
      | [] => None
      end
  | Dot => match s with _ :: t => k t g | [] => None end
  | Space =>
      match s with
      | x :: t => if isspace x then k t g else None
      | [] => None
      end
  | OneOf cs =>
      match s with
      | x :: t => if existsb (N.eqb x) cs then k t g else None
      | [] => None
      end
  | Cat a b => rmatch a s g (fun s' g' => rmatch b s' g' k)
  | Opt a => orelse (rmatch a s g k) (k s g)
  | Star a =>
      (fix loop (n : nat) (s : str) (g : option str) {struct n} :=
         match n with
         | O => k s g
         | S n' =>
             orelse
               (rmatch a s g (fun s' g' =>
                  if (length s' <? length s)%nat then loop n' s' g'
                  else None))
               (k s g)
         end) (length s) s g
  | StarLazy a =>
      (fix loop (n : nat) (s : str) (g : option str) {struct n} :=
         match n with
         | O => k s g
         | S n' =>
             orelse
               (k s g)
               (rmatch a s g (fun s' g' =>
                  if (length s' <? length s)%nat then loop n' s' g'
                  else None))
         end) (length s) s g
  | Group a =>
      rmatch a s g (fun s' _ =>
        k s' (Some (firstn (length s - length s') s)))
  end.
End Matcher.

(** A match of [r] at the head of [s]: what follows the match, and group 1. *)
Definition match_here (r : regex) (s : str) : option (str * option str) :=
  rmatch r s None (fun s' g => Some (s', g)).

Definition group1 (g : option str) : str :=
  match g with Some x => x | None => [] end.

(** [re.findall(r, s)] for a pattern with one group: group 1 of every
    match, leftmost first, the search resuming where a match ended.  The
    patterns of the program never match the empty string; [n] bounds the
    number of positions tried. *)
Fixpoint findall_from (n : nat) (r : regex) (s : str) : list str :=
  match n with
  | O => []
  | S n' =>
      match s with
      | [] => []
      | _ :: t =>
          match match_here r s with
          | Some (s', g) =>
              if (length s' <? length s)%nat
              then group1 g :: findall_from n' r s'
              else findall_from n' r t
          | None => findall_from n' r t
          end
      end
  end.

Definition findall (r : regex) (s : str) : list str :=
  findall_from (length s) r s.

(** [re.sub(r, r'\1', s)]: every match replaced by its group 1. *)
Fixpoint sub_group1_from (n : nat) (r : regex) (s : str) : str :=
  match n with
  | O => s
  | S n' =>
      match s with
      | [] => []
      | c :: t =>
          match match_here r s with
          | Some (s', g) =>
              if (length s' <? length s)%nat
              then group1 g ++ sub_group1_from n' r s'
              else c :: sub_group1_from n' r t
          | None => c :: sub_group1_from n' r t
          end
      end
  end.

Definition sub_group1 (r : regex) (s : str) : str :=
  sub_group1_from (length s) r s.

(** A literal word as a pattern. *)
Fixpoint word (w : str) : regex :=
  match w with
  | [] => Eps
  | c :: t => Cat (Lit c) (word t)
  end.

End Re.

Import Re.

(* ================================================================== *)
(** * Python objects, exceptions and results *)
(* ================================================================== *)

Set Warnings "-register-all".

(** What [json.loads] builds: [None], [bool], [int], [float], [str], [list]
    and [dict].  A [dict] keeps its keys in insertion order, each key once.
    A [float] is kept as the text it was read from. *)
Inductive value : Type :=
| VNone
| VBool (b : bool)
| VInt (z : Z)
| VFloat (lexeme : str)
| VStr (s : str)
| VList (l : list value)
| VDict (d : list (str * value)).

Definition dict := list (str * value).

(** [d.get(k)], [None] standing for an absent key. *)
Fixpoint dict_get (d : dict) (k : str) : option value :=
  match d with
  | [] => None
  | (k', v) :: d' => if str_eqb k' k then Some v else dict_get d' k
  end.

(** [k in d] *)
Definition dict_has (d : dict) (k : str) : bool :=
  match dict_get d k with Some _ => true | None => false end.

(** [d[k] = v]: an existing key keeps its place, a new one goes last. *)
Fixpoint dict_set (d : dict) (k : str) (v : value) : dict :=
  match d with
  | [] => [(k, v)]
  | (k', v') :: d' =>
      if str_eqb k' k then (k', v) :: d' else (k', v') :: dict_set d' k v
  end.

(** The exceptions the modelled code can meet. *)
Inductive exn : Type :=
| JSONDecodeError
| ValueError
| RecursionError
| KeyError (key : str)
| TypeError
| AttributeError
| OtherException (what : str).

Inductive result (A : Type) : Type :=
| Ok (a : A)
| Raise (e : exn).

Arguments Ok {A} a.
Arguments Raise {A} e.

Definition bind {A B} (r : result A) (f : A -> result B) : result B :=
  match r with
  | Ok a => f a
  | Raise e => Raise e
  end.

Notation "x <- r ;; k" := (bind r (fun x => k))
  (at level 61, r at next level, right associativity).

(* ================================================================== *)
(** * Operations on Python objects *)
(* ================================================================== *)

(** [k in s] for two strings. *)
Fixpoint is_substring (k s : str) : bool :=
  startswith s k ||
  match s with
  | [] => false
  | _ :: t => is_substring k t
  end.

Definition is_str (k : str) (v : value) : bool :=
  match v with
  | VStr s => str_eqb s k
  | _ => false
  end.

(** [k in obj] for a string [k]: a key of a dict, an element of a list, a
    substring of a string; the other objects are not containers. *)
Definition contains (obj : value) (k : str) : result bool :=
  match obj with
  | VDict d => Ok (dict_has d k)
  | VList l => Ok (existsb (is_str k) l)
  | VStr s => Ok (is_substring k s)
  | _ => Raise TypeError
  end.

(** [obj[k] = v] for a string [k]: only a dict takes it. *)
Definition set_item (obj : value) (k : str) (v : value) : result value :=
  match obj with
  | VDict d => Ok (VDict (dict_set d k v))
  | _ => Raise TypeError
  end.

(** [obj.get(k, default)]: only a dict has the method. *)
Definition get (obj : value) (k : str) (default : value) : result value :=
  match obj with
  | VDict d =>
      Ok (match dict_get d k with Some v => v | None => default end)
  | _ => Raise AttributeError
  end.

(** [obj[k]] for a string [k]. *)
Definition subscript (obj : value) (k : str) : result value :=
  match obj with
  | VDict d =>
      match dict_get d k with
      | Some v => Ok v
      | None => Raise (KeyError k)
      end
  | _ => Raise TypeError
  end.

(** What [for x in obj] runs over: the elements of a list, the keys of a
    dict, the characters of a string. *)
Definition iterate (obj : value) : result (list value) :=
  match obj with
  | VList l => Ok l
  | VDict d => Ok (map (fun kv => VStr (fst kv)) d)
  | VStr s => Ok (map (fun c => VStr [c]) s)
  | _ => Raise TypeError
  end.

Definition isinstance_dict (obj : value) : bool :=
  match obj with
  | VDict _ => true
  | _ => false
  end.

(** [try: body / except Exception as e: handler(e)] *)
Definition try_except {A} (body : result A) (handler : exn -> result A)
  : result A :=
  match body with
  | Ok a => Ok a
  | Raise e => handler e
  end.

Section Rendering.
(** Two things the objects do not determine here: whether a float, kept
    as text, is nonzero, and [str(v)] for a [v] that is not a string. *)
Variable float_nonzero : str -> bool.
Variable repr : value -> str.

(** The truth value of an object. *)
Definition truthy (v : value) : bool :=
  match v with
  | VNone => false
  | VBool b => b
  | VInt z => negb (z =? 0)%Z
  | VFloat x => float_nonzero x
  | VStr s => match s with [] => false | _ => true end
  | VList l => match l with [] => false | _ => true end
  | VDict d => match d with [] => false | _ => true end
  end.

(** [str(v)], which is also how an f-string renders [{v}]. *)
Definition to_str (v : value) : str :=
  match v with
  | VStr s => s
  | _ => repr v
  end.
End Rendering.

Section Upper.
(** The upper case of a code point above the ASCII range. *)
Variable unicode_upper : N -> str.

Definition upper_char (c : N) : str :=
  if ((97 <=? c) && (c <=? 122))%N then [(c - 32)%N]
  else if (c <? 128)%N then [c]
  else unicode_upper c.

(** [s.upper()] *)
Definition upper (s : str) : str := flat_map upper_char s.
End Upper.

(** [x in words] for a list of string literals. *)
Definition among (x : str) (words : list str) : bool :=
  existsb (str_eqb x) words.

(* ================================================================== *)
(** * A JSON decoder *)
(* ================================================================== *)

(** A decoder after CPython's [json] scanner.  It raises
    [JSONDecodeError] on a text that is not JSON, [ValueError] on an
    integer literal of more digits than [int] converts, and
    [RecursionError] on arrays and objects nested deeper than the
    interpreter allows.  In the functions that return an [option], [None]
    is the case in which [json.loads] raises [JSONDecodeError]. *)
Module Json.

Local Open Scope N_scope.

Definition is_ws (c : N) : bool :=
  (c =? 32) || (c =? 9) || (c =? 10) || (c =? 13).

Fixpoint skip_ws (s : str) : str :=
  match s with
  | c :: t => if is_ws c then skip_ws t else s
  | [] => []
  end.

Definition is_digit (c : N) : bool := (48 <=? c) && (c <=? 57).

Definition hex_digit (c : N) : option N :=
  if is_digit c then Some (c - 48)
  else if (97 <=? c) && (c <=? 102) then Some (c - 87)
  else if (65 <=? c) && (c <=? 70) then Some (c - 55)
  else None.

(** Four hexadecimal digits at the head of [s]. *)
Definition hex4 (s : str) : option (N * str) :=
  match s with
  | a :: b :: c :: d :: r =>
      match hex_digit a, hex_digit b, hex_digit c, hex_digit d with
      | Some x, Some y, Some z, Some w =>
          Some (x * 4096 + y * 256 + z * 16 + w, r)
      | _, _, _, _ => None
      end
  | _ => None
  end.

(** The character a one-letter escape stands for. *)
Definition unescape (e : N) : option N :=
  if e =? 34 then Some 34            (* quote *)
  else if e =? 92 then Some 92       (* backslash *)
  else if e =? 47 then Some 47       (* slash *)
  else if e =? 98 then Some 8        (* b *)
  else if e =? 102 then Some 12      (* f *)
  else if e =? 110 then Some 10      (* n *)
  else if e =? 114 then Some 13      (* r *)
  else if e =? 116 then Some 9       (* t *)
  else None.

Definition push (c : N) (r : option (str * str)) : option (str * str) :=
  match r with
  | Some (x, rest) => Some (c :: x, rest)
  | None => None
  end.

(** The body of a string literal, after its opening quote: the decoded
    text and what follows the closing quote. *)
Fixpoint scanstring (n : nat) (s : str) : option (str * str) :=
  match n with
  | O => None
  | S n' =>
      match s with
      | [] => None
      | c :: t =>
          if c =? 34 then Some ([], t)
          else if c =? 92 then
            match t with
            | [] => None
            | e :: t' =>
                if e =? 117 then
                  match hex4 t' with
                  | None => None
                  | Some (u, r) =>
                      if (55296 <=? u) && (u <=? 56319)
                         && startswith r [92; 117]
                      then
                        match hex4 (skipn 2 r) with
                        | None => None
                        | Some (u2, r2) =>
                            if (56320 <=? u2) && (u2 <=? 57343)
                            then push (65536 + (u - 55296) * 1024
                                       + (u2 - 56320))
                                      (scanstring n' r2)
                            else push u (scanstring n' r)
                        end
                      else push u (scanstring n' r)
                  end
                else
                  match unescape e with
                  | Some x => push x (scanstring n' t')
                  | None => None
                  end
            end
          else if c <? 32 then None
          else push c (scanstring n' t)
      end
  end.

Fixpoint span_digits (s : str) : str * str :=
  match s with
  | c :: t =>
      if is_digit c then let (ds, r) := span_digits t in (c :: ds, r)
      else ([], s)
  | [] => ([], [])
  end.

Definition decimal (ds : str) : Z :=
  fold_left (fun acc c => (acc * 10 + Z.of_N (c - 48))%Z) ds 0%Z.

(** The fraction of a number: a point and at least one digit. *)
Definition span_frac (s : str) : option str :=
  match s with
  | p :: d :: t =>
      if (p =? 46) && is_digit d then Some (snd (span_digits t)) else None
  | _ => None
  end.

(** The exponent of a number: [e] or [E], a sign if any, and at least one
    digit. *)
Definition span_exp (s : str) : option str :=
  match s with
  | e :: t =>
      if (e =? 101) || (e =? 69) then
        let t' := match t with
                  | sg :: u => if (sg =? 43) || (sg =? 45) then u else t
                  | [] => t
                  end in
        match t' with
        | d :: u => if is_digit d then Some (snd (span_digits u)) else None
        | [] => None
        end
      else None
  | [] => None
  end.

(** [sys.get_int_max_str_digits()], unless it was changed: [int] raises
    [ValueError] on a literal of more digits. *)
Definition int_max_str_digits : nat := 4300.

(** [sys.getrecursionlimit()], unless it was changed. *)
Definition recursion_limit : nat := 1000.

(** A number at the head of [s]. *)
Definition match_number (s : str) : result (value * str) :=
  let (neg, s1) := match s with
                   | c :: t => if c =? 45 then (true, t) else (false, s)
                   | [] => (false, s)
                   end in
  let int_part :=
    match s1 with
    | c :: t =>
        if (49 <=? c) && (c <=? 57)
        then let (ds, r) := span_digits t in Some (c :: ds, r)
        else if c =? 48 then Some ([c], t)
        else None
    | [] => None
    end in
  match int_part with
  | None => Raise JSONDecodeError
  | Some (ds, r) =>
      let (r1, has_frac) := match span_frac r with
                            | Some r' => (r', true)
                            | None => (r, false)
                            end in
      let (r2, has_exp) := match span_exp r1 with
                           | Some r' => (r', true)
                           | None => (r1, false)
                           end in
      if has_frac || has_exp
      then Ok (VFloat (firstn (length s - length r2) s), r2)
      else if (int_max_str_digits <? length ds)%nat
      then Raise ValueError
      else Ok (VInt (if neg then (- decimal ds)%Z else decimal ds), r2)
  end.

Definition constant (w : string) (v : value) (s : str)
  : result (value * str) :=
  if startswith s (lit w)
  then Ok (v, skipn (length (lit w)) s)
  else Raise JSONDecodeError.

(** One JSON value at the head of [s]; [n] bounds the chain of nested and
    successive values, and [room] is the number of nested arrays and
    objects that the interpreter still allows. *)
Fixpoint scan_once (n room : nat) (s : str) {struct n}
  : result (value * str) :=
  match n with
  | O => Raise JSONDecodeError
  | S n' =>
      match s with
      | [] => Raise JSONDecodeError
      | c :: t =>
          if c =? 34 then
            match scanstring (length s) t with
            | Some (x, r) => Ok (VStr x, r)
            | None => Raise JSONDecodeError
            end
          else if c =? 123 then
            match room with
            | O => Raise RecursionError
            | S room' =>
                match skip_ws t with
                | c' :: r =>
                    if c' =? 125 then Ok (VDict [], r)
                    else parse_members n' room' (c' :: r) []
                | [] => Raise JSONDecodeError
                end
            end
          else if c =? 91 then
            match room with
            | O => Raise RecursionError
            | S room' =>
                match skip_ws t with
                | c' :: r =>
                    if c' =? 93 then Ok (VList [], r)
                    else parse_elements n' room' (c' :: r) []
                | [] => Raise JSONDecodeError
                end
            end
          else if c =? 110 then constant "null" VNone s
          else if c =? 116 then constant "true" (VBool true) s
          else if c =? 102 then constant "false" (VBool false) s
          else if c =? 78 then constant "NaN" (VFloat (lit "NaN")) s
          else if c =? 73 then
            constant "Infinity" (VFloat (lit "Infinity")) s
          else if (c =? 45) && startswith t (lit "Infinity") then
            constant "-Infinity" (VFloat (lit "-Infinity")) s
          else match_number s
      end
  end

(** The members of an object, from a key on; [acc] is the dict so far. *)
with parse_members (n room : nat) (s : str) (acc : dict) {struct n}
  : result (value * str) :=
  match n with
  | O => Raise JSONDecodeError
  | S n' =>
      match s with
      | [] => Raise JSONDecodeError
      | q :: t =>
          if q =? 34 then
            match scanstring (length s) t with
            | None => Raise JSONDecodeError
            | Some (key, r) =>
                match skip_ws r with
                | [] => Raise JSONDecodeError
                | colon :: r1 =>
                    if colon =? 58 then
                      match scan_once n' room (skip_ws r1) with
                      | Raise e => Raise e
                      | Ok (v, r2) =>
                          match skip_ws r2 with
                          | [] => Raise JSONDecodeError
                          | d :: r3 =>
                              if d =? 125
                              then Ok (VDict (dict_set acc key v), r3)
                              else if d =? 44
                              then parse_members n' room (skip_ws r3)
                                                 (dict_set acc key v)
                              else Raise JSONDecodeError
                          end
                      end
                    else Raise JSONDecodeError
                end
            end
          else Raise JSONDecodeError
      end
  end

(** The elements of an array, from a value on; [acc] holds the elements so
    far, last first. *)
with parse_elements (n room : nat) (s : str) (acc : list value) {struct n}
  : result (value * str) :=
  match n with
  | O => Raise JSONDecodeError
  | S n' =>
      match scan_once n' room s with
      | Raise e => Raise e
      | Ok (v, r) =>
          match skip_ws r with
          | [] => Raise JSONDecodeError
          | d :: r1 =>
              if d =? 93 then Ok (VList (rev (v :: acc)), r1)
              else if d =? 44
              then parse_elements n' room (skip_ws r1) (v :: acc)
              else Raise JSONDecodeError
          end
      end
  end.

(** [json.loads(s)] when the interpreter allows [room] nested arrays and
    objects: one value, whitespace allowed around it, nothing else; a
    leading byte-order mark is refused. *)
Definition loads_within (room : nat) (s : str) : result value :=
  if startswith s [65279] then Raise JSONDecodeError
  else
    match scan_once (2 * length s + 2) room (skip_ws s) with
    | Ok (v, r) =>
        match skip_ws r with
        | [] => Ok v
        | _ :: _ => Raise JSONDecodeError
        end
    | Raise e => Raise e
    end.

(** [json.loads(s)] under the default recursion limit, the frames in use
    at the call not counted. *)
Definition loads (s : str) : result value :=
  loads_within recursion_limit s.

End Json.

(* ================================================================== *)
(** * The two patterns *)
(* ================================================================== *)

(** The pattern of the fenced-block scan: three backticks, [json] if
    present, a line feed, group 1 (any text, as short as possible), a line
    feed, three backticks.  The same text in both files. *)
Definition code_block_re : regex :=
  Cat (word (lit "```"))
      (Cat (Opt (word (lit "json")))
           (Cat (Lit nl)
                (Cat (Group (StarLazy Dot))
                     (Cat (Lit nl) (word (lit "```")))))).

(** The pattern of the trailing-comma repair: a comma, any whitespace,
    group 1 (a closing brace or bracket).  The same text in both files. *)
Definition trailing_comma_re : regex :=
  Cat (Lit (chr ","))
      (Cat (Star Space) (Group (OneOf [chr "}"; chr "]"]))).

(* ================================================================== *)
(** * src/app.py *)
(* ================================================================== *)

Module App.

Section Extract.
(** [json.loads] *)
Variable json_loads : str -> result value.

(** [try: return json.loads(x)], with [handler] what the function goes on
    to do after [except json.JSONDecodeError]. *)
Definition try_loads (x : str) (handler : result value) : result value :=
  match json_loads x with
  | Ok v => Ok v
  | Raise JSONDecodeError => handler
  | Raise e => Raise e
  end.

(** Strategy 2, the loop over [code_blocks]. *)
Fixpoint scan_blocks (code_blocks : list str) (rest : result value)
  : result value :=
  match code_blocks with
  | [] => rest
  | block :: more => try_loads (strip block) (scan_blocks more rest)
  end.

(** Strategy 5, the loop over [lines], with the loop's two variables. *)
Fixpoint scan_lines (lines : list str) (json_lines : list str)
         (in_json : bool) (rest : result value) : result value :=
  match lines with
  | [] => rest
  | line :: more =>
      if startswith (strip line) (lit "{") || in_json then
        let json_lines := json_lines ++ [line] in
        if endswith (strip line) (lit "}") then
          try_loads (join [nl] json_lines)
                    (scan_lines more json_lines true rest)
        else scan_lines more json_lines true rest
      else scan_lines more json_lines in_json rest
  end.

(** The mapping returned when nothing parsed. *)
Definition failure (cleaned : str) : value :=
  VDict [ (lit "error",
           VStr (lit "Failed to extract valid JSON from response"));
          (lit "raw_response",
           VStr (if (len cleaned >? 500)%Z
                 then slice cleaned 0 500 ++ lit "..."
                 else cleaned)) ].

Definition extract_json_from_response (response : str) : result value :=
  let cleaned := strip response in
  (* Strategy 1 *)
  try_loads cleaned (
  (* Strategy 2 *)
  let code_blocks := findall code_block_re cleaned in
  scan_blocks code_blocks (
  (* Strategy 5 and the final return, reached from three places *)
  let strategy5 :=
    scan_lines (split nl cleaned) [] false (Ok (failure cleaned)) in
  (* Strategy 3 *)
  let start_idx := find cleaned (chr "{") in
  let end_idx := rfind cleaned (chr "}") in
  if negb (start_idx =? -1)%Z && negb (end_idx =? -1)%Z then
    let potential_json := slice cleaned start_idx (end_idx + 1) in
    try_loads potential_json (
    (* Strategy 4 *)
    let fixed := sub_group1 trailing_comma_re potential_json in
    try_loads fixed strategy5)
  else strategy5)).
End Extract.

Section Generate.
(** [json.loads], [chain.invoke] on the two prompt variables, and
    [str(e)] for an exception [e]. *)
Variable json_loads : str -> result value.
Variable invoke : str -> str -> result str.
Variable exn_str : exn -> str.

Definition generate_schema (description schema_type : str)
  : result value :=
  try_except
    (response <- invoke description schema_type ;;
     result <- extract_json_from_response json_loads response ;;
     has_error <- contains result (lit "error") ;;
     if has_error : bool
     then set_item result (lit "raw_response")
                   (VStr (slice response 0 1000))
     else Ok result)
    (fun e =>
       Ok (VDict [ (lit "error",
                    VStr (lit "Schema generation failed: " ++ exn_str e));
                   (lit "raw_response", VStr (exn_str e)) ])).
End Generate.

(** What [graphviz.Digraph] records: the calls made on it, in order.  The
    library's own checks on the arguments are not modelled. *)
Inductive dot_stmt : Type :=
| Attr (key val : str)
| Node (name : value) (label : str)
| Edge (tail head : value) (label : str).

Record digraph : Type := Digraph { comment : str; body : list dot_stmt }.

Definition add (dot : digraph) (st : dot_stmt) : digraph :=
  Digraph (comment dot) (body dot ++ [st]).

Section Diagram.
Variable float_nonzero : str -> bool.
Variable repr : value -> str.

(** The list comprehension over the fields of an item. *)
Fixpoint field_lines (fields : list value) : result (list str) :=
  match fields with
  | [] => Ok []
  | f :: more =>
      name <- subscript f (lit "name") ;;
      type <- subscript f (lit "type") ;;
      rest <- field_lines more ;;
      Ok ((to_str repr name ++ lit ": " ++ to_str repr type) :: rest)
  end.

(** The first loop: one node per item. *)
Fixpoint node_loop (items : list value) (dot : digraph) : result digraph :=
  match items with
  | [] => Ok dot
  | item :: more =>
      fields_obj <- get item (lit "fields") (VList []) ;;
      field_list <- iterate fields_obj ;;
      parts <- field_lines field_list ;;
      let fields := join [nl] parts in
      name <- subscript item (lit "name") ;;
      name' <- subscript item (lit "name") ;;
      node_loop more
        (add dot (Node name (to_str repr name' ++ [nl] ++ fields)))
  end.

(** The inner loop of the second: one edge per relationship. *)
Fixpoint rel_loop (item : value) (rels : list value) (dot : digraph)
  : result digraph :=
  match rels with
  | [] => Ok dot
  | rel :: more =>
      name <- subscript item (lit "name") ;;
      related_to <- subscript rel (lit "related_to") ;;
      type <- subscript rel (lit "type") ;;
      field <- subscript rel (lit "field") ;;
      rel_loop item more
        (add dot (Edge name related_to
                       (to_str repr type ++ [nl] ++ to_str repr field)))
  end.

(** The second loop. *)
Fixpoint edge_loop (items : list value) (dot : digraph) : result digraph :=
  match items with
  | [] => Ok dot
  | item :: more =>
      rels_obj <- get item (lit "relationships") (VList []) ;;
      rels <- iterate rels_obj ;;
      dot' <- rel_loop item rels dot ;;
      edge_loop more dot'
  end.

Definition create_er_diagram (schema : value) : result digraph :=
  let dot := Digraph (lit "ER Diagram") [] in
  let dot := add dot (Attr (lit "rankdir") (lit "LR")) in
  error <- get schema (lit "error") VNone ;;
  if truthy float_nonzero error then Ok dot
  else
    schema_type <- get schema (lit "schema_type") VNone ;;
    items_obj <- (if is_str (lit "relational") schema_type
                  then get schema (lit "tables") (VList [])
                  else get schema (lit "collections") (VList [])) ;;
    items <- iterate items_obj ;;
    dot <- node_loop items dot ;;
    items' <- iterate items_obj ;;
    dot <- edge_loop items' dot ;;
    Ok dot.
End Diagram.

End App.

(* ================================================================== *)
(** * src/app2.py *)
(* ================================================================== *)

Module App2.

Section Extract.
(** [json.loads] *)
Variable json_loads : str -> result value.

(** [try: return json.loads(x)], with [handler] what the function goes on
    to do after [except json.JSONDecodeError]. *)
Definition try_loads (x : str) (handler : result value) : result value :=
  match json_loads x with
  | Ok v => Ok v
  | Raise JSONDecodeError => handler
  | Raise e => Raise e
  end.

(** The loop over [code_blocks]. *)
Fixpoint scan_blocks (code_blocks : list str) (rest : result value)
  : result value :=
  match code_blocks with
  | [] => rest
  | block :: more => try_loads (strip block) (scan_blocks more rest)
  end.

(** The mapping returned when nothing parsed. *)
Definition failure (cleaned : str) : value :=
  VDict [ (lit "error",
           VStr (lit "Failed to extract valid JSON from response"));
          (lit "raw_response", VStr (slice cleaned 0 500 ++ lit "...")) ].

Definition extract_json_from_response (response : str) : result value :=
  let cleaned := strip response in
  try_loads cleaned (
  let code_blocks := findall code_block_re cleaned in
  scan_blocks code_blocks (
  let start_idx := find cleaned (chr "{") in
  let end_idx := rfind cleaned (chr "}") in
  if negb (start_idx =? -1)%Z && negb (end_idx =? -1)%Z then
    let potential_json := slice cleaned start_idx (end_idx + 1) in
    try_loads potential_json (
    let fixed := sub_group1 trailing_comma_re potential_json in
    try_loads fixed (Ok (failure cleaned)))
  else Ok (failure cleaned))).
End Extract.

Section Generate.
(** [json.loads], [chain.invoke] on the two prompt variables, and
    [str(e)] for an exception [e]. *)
Variable json_loads : str -> result value.
Variable invoke : str -> str -> result str.
Variable exn_str : exn -> str.

Definition generate_schema (description schema_type : str)
  : result value :=
  try_except
    (response <- invoke description schema_type ;;
     result <- extract_json_from_response json_loads response ;;
     has_error <- contains result (lit "error") ;;
     if has_error : bool
     then set_item result (lit "raw_response")
                   (VStr (slice response 0 1000))
     else Ok result)
    (fun e =>
       Ok (VDict [ (lit "error",
                    VStr (lit "Schema generation failed: " ++ exn_str e));
                   (lit "raw_response", VStr (exn_str e)) ])).
End Generate.

Section Diagram.
Variable float_nonzero : str -> bool.
Variable repr : value -> str.
Variable unicode_upper : N -> str.
Variable exn_str : exn -> str.

(** The connector chosen for a normalized relationship type. *)
Definition connector (rel_type : str) : str :=
  if among rel_type [lit "1:1"; lit "ONE_TO_ONE"] then lit "||--||"
  else if among rel_type [lit "1:N"; lit "ONE_TO_MANY"] then lit "||--o{"
  else if among rel_type [lit "M:N"; lit "MANY_TO_MANY"] then lit "}o--o{"
  else lit "--".

(** [str(v).upper().replace("-", ":")] *)
Definition normalize (v : value) : str :=
  replace (upper unicode_upper (to_str repr v)) (chr "-") (chr ":").

(** The loop over the fields of an item. *)
Fixpoint field_loop (fields : list value) (entity_lines : list str)
  : result (list str) :=
  match fields with
  | [] => Ok entity_lines
  | field :: more =>
      if negb (isinstance_dict field) then field_loop more entity_lines
      else
        type <- get field (lit "type") (VStr (lit "string")) ;;
        let field_type := upper unicode_upper (to_str repr type) in
        field_name <- get field (lit "name") (VStr (lit "unknown")) ;;
        field_loop more
          (entity_lines ++
           [lit "  " ++ field_type ++ lit " " ++ to_str repr field_name])
  end.

(** The first loop: one block per entity. *)
Fixpoint entity_loop (items : list value) (diagram : list str)
  : result (list str) :=
  match items with
  | [] => Ok diagram
  | item :: more =>
      if negb (isinstance_dict item) then entity_loop more diagram
      else
        name <- get item (lit "name") (VStr (lit "unnamed")) ;;
        let entity_lines := [to_str repr name ++ lit " {"] in
        fields_obj <- get item (lit "fields") (VList []) ;;
        fields <- iterate fields_obj ;;
        entity_lines <- field_loop fields entity_lines ;;
        let entity_lines := entity_lines ++ [lit "}"] in
        entity_loop more (diagram ++ [join [nl] entity_lines])
  end.

(** The inner loop of the second: one line per relationship. *)
Fixpoint rel_loop (item : value) (rels : list value) (diagram : list str)
  : result (list str) :=
  match rels with
  | [] => Ok diagram
  | rel :: more =>
      if negb (isinstance_dict rel) then rel_loop item more diagram
      else
        src <- get item (lit "name") (VStr (lit "unknown")) ;;
        dest <- get rel (lit "related_to") (VStr (lit "unknown")) ;;
        type <- get rel (lit "type") (VStr (lit "1:N")) ;;
        let rel_type := normalize type in
        rel_field <- get rel (lit "field") (VStr []) ;;
        rel_loop item more
          (diagram ++
           [to_str repr src ++ lit " " ++ connector rel_type ++ lit " "
            ++ to_str repr dest ++ lit " : " ++ [34%N]
            ++ to_str repr rel_field ++ [34%N]])
  end.

(** The second loop. *)
Fixpoint relationship_loop (items : list value) (diagram : list str)
  : result (list str) :=
  match items with
  | [] => Ok diagram
  | item :: more =>
      if negb (isinstance_dict item) then relationship_loop more diagram
      else
        rels_obj <- get item (lit "relationships") (VList []) ;;
        rels <- iterate rels_obj ;;
        diagram' <- rel_loop item rels diagram ;;
        relationship_loop more diagram'
  end.

(** The text returned for a missing or failed schema. *)
Definition invalid_schema : str :=
  join [nl] [lit "erDiagram"; lit "    error((Error: Invalid Schema))"].

(** The text returned when building the diagram raised [e]. *)
Definition generation_failed (e : exn) : str :=
  join [nl] [ lit "erDiagram";
              lit "    error((Diagram Generation Failed))";
              lit "    note{";
              lit "        " ++ slice (exn_str e) 0 100;
              lit "    }" ].

Definition create_mermaid_diagram (schema : value) : result str :=
  if negb (truthy float_nonzero schema) then Ok invalid_schema
  else
    error <- get schema (lit "error") VNone ;;
    if truthy float_nonzero error then Ok invalid_schema
    else
      try_except
        (let diagram := [lit "erDiagram"] in
         schema_type <- get schema (lit "schema_type") VNone ;;
         items_obj <- (if is_str (lit "relational") schema_type
                       then get schema (lit "tables") (VList [])
                       else get schema (lit "collections") (VList [])) ;;
         (* 1. entities *)
         items <- iterate items_obj ;;
         diagram <- entity_loop items diagram ;;
         (* 2. relationships *)
         items' <- iterate items_obj ;;
         diagram <- relationship_loop items' diagram ;;
         Ok (join [nl] diagram))
        (fun e => Ok (generation_failed e)).
End Diagram.

End App2.

(* ================================================================== *)
(** * src/app2.py: the Ollama server *)
(* ================================================================== *)

(** [check_server_ready], [start_ollama_server] and
    [ensure_ollama_running], with what [requests.get] and
    [subprocess.Popen] come to as parameters. *)
Module Ollama.

(** What one call of [requests.get] comes to: an answer, with its status
    code, or [requests.exceptions.RequestException]. *)
Inductive probe : Type :=
| Status (code : Z)
| Unreachable.

(** What the functions do besides returning: the messages in the sidebar,
    the pauses, and the start of the server. *)
Inductive event : Type :=
| Slept                       (* [time.sleep(1)] *)
| Ready (seconds : nat)       (* the message of [check_server_ready] *)
| AlreadyRunning              (* the message of [ensure_ollama_running] *)
| Starting                    (* the warning of [ensure_ollama_running] *)
| Launched                    (* [subprocess.Popen] returned *)
| LaunchFailed.               (* the error message of [start_ollama_server] *)

Definition answers_ok (p : probe) : bool :=
  match p with
  | Status code => (code =? 200)%Z
  | Unreachable => false
  end.

Section Server.
(** The outcome of each call of [requests.get], the calls counted from 0,
    and whether [subprocess.Popen] returns. *)
Variable get : nat -> probe.
Variable popen_ok : bool.

(** The loop of [check_server_ready] from iteration [i], with [remaining]
    iterations to go, after [calls] calls of [requests.get]. *)
Fixpoint poll (calls i remaining : nat) : bool * list event :=
  match remaining with
  | O => (false, [])
  | S r =>
      match get calls with
      | Status code =>
          if (code =? 200)%Z then (true, [Ready (i + 1)])
          else poll (S calls) (S i) r
      | Unreachable =>
          let (ready, events) := poll (S calls) (S i) r in
          (ready, Slept :: events)
      end
  end.

Definition check_server_ready (calls timeout : nat) : bool * list event :=
  poll calls 0 timeout.

Definition start_ollama_server : bool * list event :=
  if popen_ok then (true, [Launched]) else (false, [LaunchFailed]).

Definition ensure_ollama_running : bool * list event :=
  if answers_ok (get 0) then (true, [AlreadyRunning])
  else
    let (started, launch) := start_ollama_server in
    if negb started then (false, Starting :: launch)
    else
      let (ready, events) := check_server_ready 1 15 in
      (ready, Starting :: launch ++ events).
End Server.

(** ** For the statements about the server *)

Definition sleeps (events : list event) : nat :=
  length (filter (fun e => match e with Slept => true | _ => false end) events).

(** The first of [n] calls, from call [calls] on, that is answered with
    status 200. *)
Fixpoint first_ok (get : nat -> probe) (calls n : nat) : option nat :=
  match n with
  | O => None
  | S n' =>
      if answers_ok (get calls) then Some 0
      else match first_ok get (S calls) n' with
           | Some k => Some (S k)
           | None => None
           end
  end.

Definition unreachable (p : probe) : bool :=
  match p with Unreachable => true | _ => false end.

(** How many of the [n] calls from call [calls] on raise
    [RequestException]. *)
Definition raised (get : nat -> probe) (calls n : nat) : nat :=
  length (filter unreachable (map get (seq calls n))).

(** A server that answers the third call; the two before it raise. *)
Definition third_call (k : nat) : probe :=
  if (k =? 2)%nat then Status 200 else Unreachable.

End Ollama.

(* ================================================================== *)
(** * src/app2.py: the deployment to a database *)
(* ================================================================== *)

(** [show_database_connection_form], [get_mysql_connection],
    [execute_mysql_queries], [get_mongo_connection] and
    [create_mongo_collections], with the database servers as parameters.
    A function returns its value together with the events it caused. *)
Module Deploy.

(** The entries of [st.session_state] that the database functions read;
    [None] is an entry that was never assigned: reading it raises
    [AttributeError]. *)
Record session : Type := Session {
  mysql_host : option str;
  mysql_user : option str;
  mysql_password : option str;
  mysql_database : option str;
  mongo_host : option str;
  mongo_username : option str;
  mongo_password : option str;
  mongo_database : option str
}.

(** [st.session_state.<entry>] *)
Definition attr (entry : option str) : result str :=
  match entry with
  | Some v => Ok v
  | None => Raise AttributeError
  end.

Inductive db_type : Type := MySQL | MongoDB.

(** The assignments of [show_database_connection_form], for the database
    type selected and the texts of the input fields. *)
Definition show_database_connection_form (choice : db_type)
           (first second third fourth : str) (s : session) : session :=
  match choice with
  | MySQL =>
      Session (Some first) (Some second) (Some third) (Some fourth)
              (mongo_host s) (mongo_username s) (mongo_password s)
              (mongo_database s)
  | MongoDB =>
      Session (mysql_host s) (mysql_user s) (mysql_password s)
              (mysql_database s)
              (Some first) (Some second) (Some third)
              (mongo_database s)
  end.

(** The truth value of a string. *)
Definition nonempty (s : str) : bool :=
  match s with [] => false | _ => true end.

(** ** MySQL *)

Inductive sql_event : Type :=
| ConnectionError            (* [st.error] of [get_mysql_connection] *)
| Execute (query : str)      (* [cursor.execute(query)] was called *)
| Commit                     (* [connection.commit()] was called *)
| QueryError                 (* [st.error] of [execute_mysql_queries] *)
| CloseCursor
| CloseConnection.

Section MySQLServer.
(** The server: whether [mysql.connector.connect] returns for the four
    settings, whether [cursor.execute] returns for a statement after the
    statements executed before it, whether [commit] returns, and what
    [is_connected] answers at the end.  Where they do not return they
    raise [mysql.connector.Error]. *)
Variable connect : str -> str -> str -> str -> bool.
Variable accepts : list str -> str -> bool.
Variable commits : list str -> bool.
Variable is_connected : bool.

Definition get_mysql_connection (s : session)
  : result bool * list sql_event :=
  match (host <- attr (mysql_host s) ;;
         user <- attr (mysql_user s) ;;
         password <- attr (mysql_password s) ;;
         database <- attr (mysql_database s) ;;
         Ok (connect host user password database)) with
  | Ok true => (Ok true, [])
  | Ok false => (Ok false, [ConnectionError])
  | Raise e => (Raise e, [])
  end.

(** The loop over the pieces of [queries]: [done] holds the statements
    executed so far; the result tells whether every call returned. *)
Fixpoint execute_all (pieces : list str) (done : list str)
  : bool * list str * list sql_event :=
  match pieces with
  | [] => (true, done, [])
  | query :: more =>
      if nonempty (strip query) then
        if accepts done query then
          let '(ok, done', events) := execute_all more (done ++ [query]) in
          (ok, done', Execute query :: events)
        else (false, done, [Execute query])
      else execute_all more done
  end.

Definition execute_mysql_queries (s : session) (queries : str)
  : result bool * list sql_event :=
  match get_mysql_connection s with
  | (Raise e, events) => (Raise e, events)
  | (Ok false, events) => (Ok false, events)
  | (Ok true, events) =>
      let '(ok, done, executed) := execute_all (split (chr ";") queries) [] in
      let closing :=
        if is_connected then [CloseCursor; CloseConnection] else [] in
      if ok then
        if commits done
        then (Ok true, events ++ executed ++ [Commit] ++ closing)
        else (Ok false, events ++ executed ++ [Commit; QueryError] ++ closing)
      else (Ok false, events ++ executed ++ [QueryError] ++ closing)
  end.
End MySQLServer.

(** ** MongoDB *)

Inductive mongo_op : Type :=
| InsertOne (collection : value)
| DeleteMany (collection : value)
| CreateIndex (collection : value) (keys : list value).

Inductive mongo_event : Type :=
| MongoConnectionError       (* [st.error] of [get_mongo_connection] *)
| Done (op : mongo_op)       (* a call of the driver that returned *)
| OperationError             (* [st.error] of [create_mongo_collections] *)
| CloseClient.

Section MongoServer.
(** The server: whether [MongoClient] and the ping return for a connection
    string, and whether a call of the driver returns after the calls that
    returned before it.  Where they do not return they raise. *)
Variable connect : str -> bool.
Variable driver_ok : list mongo_op -> mongo_op -> bool.

(** The connection string of [get_mongo_connection]. *)
Definition connection_string (s : session) : result str :=
  username <- attr (mongo_username s) ;;
  both <- (if nonempty username
           then password <- attr (mongo_password s) ;; Ok (nonempty password)
           else Ok false) ;;
  if both : bool then
    username <- attr (mongo_username s) ;;
    password <- attr (mongo_password s) ;;
    host <- attr (mongo_host s) ;;
    database <- attr (mongo_database s) ;;
    Ok (lit "mongodb://" ++ username ++ lit ":" ++ password ++ lit "@"
        ++ host ++ lit "/" ++ database)
  else
    host <- attr (mongo_host s) ;;
    Ok host.

(** The client is stood for by its connection string. *)
Definition get_mongo_connection (s : session)
  : option str * list mongo_event :=
  match connection_string s with
  | Ok cs => if connect cs then (Some cs, [])
             else (None, [MongoConnectionError])
  | Raise _ => (None, [MongoConnectionError])
  end.

(** The inner loop: the names of the fields whose constraints hold
    [unique]. *)
Fixpoint unique_fields (fields : list value) (indexes : list value)
  : result (list value) :=
  match fields with
  | [] => Ok indexes
  | field :: more =>
      constraints <- get field (lit "constraints") (VList []) ;;
      is_unique <- contains constraints (lit "unique") ;;
      if is_unique : bool then
        name <- subscript field (lit "name") ;;
        unique_fields more (indexes ++ [name])
      else unique_fields more indexes
  end.

(** A call of the driver after the calls [ops]: it returns and is
    recorded, or it raises. *)
Definition call (op : mongo_op) (ops : list mongo_op)
  : result (list mongo_op) :=
  if driver_ok ops op then Ok (ops ++ [op])
  else Raise (OtherException (lit "pymongo")).

(** What is done for one collection, after the calls [ops]: the calls
    made, and whether an exception ended them. *)
Definition create_one (collection : value) (ops : list mongo_op)
  : list mongo_op * option exn :=
  match subscript collection (lit "name") with
  | Raise e => (ops, Some e)
  | Ok name =>
      match call (InsertOne name) ops with
      | Raise e => (ops, Some e)
      | Ok ops1 =>
          match subscript collection (lit "name") with
          | Raise e => (ops1, Some e)
          | Ok name' =>
              match call (DeleteMany name') ops1 with
              | Raise e => (ops1, Some e)
              | Ok ops2 =>
                  match (fields_obj <- get collection (lit "fields")
                                           (VList []) ;;
                         fields <- iterate fields_obj ;;
                         unique_fields fields []) with
                  | Raise e => (ops2, Some e)
                  | Ok [] => (ops2, None)
                  | Ok indexes =>
                      match subscript collection (lit "name") with
                      | Raise e => (ops2, Some e)
                      | Ok name'' =>
                          match call (CreateIndex name'' indexes) ops2 with
                          | Raise e => (ops2, Some e)
                          | Ok ops3 => (ops3, None)
                          end
                      end
                  end
              end
          end
      end
  end.

(** The loop over the collections. *)
Fixpoint create_all (collections : list value) (ops : list mongo_op)
  : list mongo_op * option exn :=
  match collections with
  | [] => (ops, None)
  | collection :: more =>
      match create_one collection ops with
      | (ops', None) => create_all more ops'
      | failed => failed
      end
  end.

Definition create_mongo_collections (s : session) (schema : value)
  : bool * list mongo_event :=
  match get_mongo_connection s with
  | (None, events) => (false, events)
  | (Some client, events) =>
      let '(ops, raised) :=
        match (database <- attr (mongo_database s) ;;
               collections_obj <- get schema (lit "collections")
                                      (VList []) ;;
               iterate collections_obj) with
        | Raise e => ([], Some e)
        | Ok collections => create_all collections []
        end in
      match raised with
      | None => (true, events ++ map Done ops ++ [CloseClient])
      | Some _ =>
          (false, events ++ map Done ops ++ [OperationError; CloseClient])
      end
  end.
End MongoServer.

(** ** For the statements about the deployment *)

(** The session state before the form has run: nothing is assigned. *)
Definition fresh : session :=
  Session None None None None None None None None.

(** A run of the connection form: the database type selected and the
    texts of its four input fields (the fourth is unused for MongoDB). *)
Definition form_run : Type := (db_type * (str * str * str * str))%type.

Definition submit (s : session) (r : form_run) : session :=
  let '(choice, (a, b, c, d)) := r in
  show_database_connection_form choice a b c d s.

(** A piece of [queries] that is sent: it is not blank. *)
Definition statement (piece : str) : bool := nonempty (strip piece).

(** The session state after the form has run with MySQL selected and an
    empty password. *)
Definition configured : session :=
  show_database_connection_form MySQL (lit "localhost") (lit "root") []
                                (lit "my_database") fresh.

(** A server that rejects the statements that start with [DROP]. *)
Definition rejects_drop (done : list str) (query : str) : bool :=
  negb (startswith query (lit "DROP")).

End Deploy.

(* ================================================================== *)
(** * The cascade, as the specification words it *)
(* ================================================================== *)

(** The text is refused by [json.loads]. *)
Definition refused (json_loads : str -> result value) (t : str) : Prop :=
  json_loads t = Raise JSONDecodeError.

(** On these texts [json.loads] raises nothing but [JSONDecodeError]. *)
Definition decode_errors_on (json_loads : str -> result value)
           (texts : list str) : Prop :=
  forall t e, In t texts -> json_loads t = Raise e -> e = JSONDecodeError.

(** The same, as a test. *)
Definition decode_errors_onb (json_loads : str -> result value)
           (texts : list str) : bool :=
  forallb (fun t => match json_loads t with
                    | Ok _ | Raise JSONDecodeError => true
                    | Raise _ => false
                    end) texts.

(** [t] is the first of [texts] that [json.loads] does not refuse: it
    parses, or an exception other than [JSONDecodeError] is raised. *)
Definition first_not_refused (json_loads : str -> result value)
           (texts : list str) (t : str) : Prop :=
  exists pre post,
    texts = pre ++ t :: post
    /\ Forall (refused json_loads) pre
    /\ ~ refused json_loads t.

(** The same, as a test. *)
Definition refusedb (json_loads : str -> result value) (t : str) : bool :=
  match json_loads t with
  | Raise JSONDecodeError => true
  | _ => false
  end.

(** An ordered list of texts, each parsed only if the ones before it were
    refused; [rest] is what happens when all are refused. *)
Fixpoint first_parse (json_loads : str -> result value) (texts : list str)
         (rest : result value) : result value :=
  match texts with
  | [] => rest
  | t :: more =>
      match json_loads t with
      | Ok v => Ok v
      | Raise JSONDecodeError => first_parse json_loads more rest
      | Raise e => Raise e
      end
  end.

(** ** The two patterns, read directly *)

(** The three backticks of a fence. *)
Definition fence : str := lit "```".

(** The body of a fenced region and what follows the region: the body
    ends at the first line feed that three backticks follow. *)
Fixpoint find_close (s : str) : option (str * str) :=
  if startswith s (nl :: fence) then Some ([], skipn 4 s)
  else
    match s with
    | [] => None
    | c :: t =>
        match find_close t with
        | Some (body, rest) => Some (c :: body, rest)
        | None => None
        end
    end.

(** The opening of a fenced region: three backticks, [json] if present,
    and a line feed; the result is the text after it. *)
Definition open_fence (s : str) : option str :=
  if startswith s (fence ++ lit "json" ++ [nl]) then Some (skipn 8 s)
  else if startswith s (fence ++ [nl]) then Some (skipn 4 s)
  else None.

(** A fenced region at the head of [s]: its body and what follows it. *)
Definition region_here (s : str) : option (str * str) :=
  match open_fence s with
  | Some inside => find_close inside
  | None => None
  end.

(** The bodies of the fenced regions, in document order, the search
    resuming after each region; [n] bounds the positions tried. *)
Fixpoint regions_from (n : nat) (s : str) : list str :=
  match n with
  | O => []
  | S n' =>
      match s with
      | [] => []
      | _ :: t =>
          match region_here s with
          | Some (body, rest) => body :: regions_from n' rest
          | None => regions_from n' t
          end
      end
  end.

Definition fenced_regions (s : str) : list str := regions_from (length s) s.

(** A closing brace or bracket. *)
Definition closer (c : N) : bool := existsb (N.eqb c) [chr "}"; chr "]"].

(** After any whitespace, [t] goes on with a closing brace or bracket. *)
Definition before_closer (t : str) : bool :=
  match lstrip t with
  | x :: _ => closer x
  | [] => false
  end.

(** The text without the commas that a closing brace or bracket follows,
    whitespace ignored. *)
Fixpoint drop_trailing_commas (s : str) : str :=
  match s with
  | [] => []
  | c :: t =>
      if N.eqb c (chr ",") && before_closer t then drop_trailing_commas t
      else c :: drop_trailing_commas t
  end.

(** The same, the whitespace between such a comma and its closing brace or
    bracket removed with the comma; [skipping] holds while that whitespace
    is being passed. *)
Fixpoint repair_from (skipping : bool) (s : str) : str :=
  match s with
  | [] => []
  | c :: t =>
      if skipping && isspace c then repair_from true t
      else if N.eqb c (chr ",") && before_closer t then repair_from true t
      else c :: repair_from false t
  end.

Definition repair_commas (s : str) : str := repair_from false s.

(** The text without its whitespace. *)
Definition visible (s : str) : str := filter (fun c => negb (isspace c)) s.

(** The first of the suffixes of [s], longest first, that [k] accepts. *)
Fixpoint first_suffix {R} (k : str -> option R) (s : str) : option R :=
  orelse (k s) (match s with [] => None | _ :: t => first_suffix k t end).

(** The closing of a fenced region at the head of [s]. *)
Definition closing (s : str) (g : option str) : option (str * option str) :=
  if startswith s (nl :: fence) then Some (skipn 4 s, g) else None.

(** Strategy 2: the content of every fenced region, trimmed. *)
Definition fenced_texts (cleaned : str) : list str :=
  map strip (fenced_regions cleaned).

(** Strategies 3 and 4: the slice from the first opening brace to the last
    closing brace, and the same slice with its trailing commas removed. *)
Definition brace_texts (cleaned : str) : list str :=
  let i := find cleaned (chr "{") in
  let j := rfind cleaned (chr "}") in
  if ((i =? -1) || (j =? -1))%Z then []
  else
    let potential := slice cleaned i (j + 1) in
    [potential; repair_commas potential].

(** The texts of strategies 1 to 4, in the order they are tried. *)
Definition strategy_texts (response : str) : list str :=
  let cleaned := strip response in
  [cleaned] ++ fenced_texts cleaned ++ brace_texts cleaned.

Definition opens (line : str) : bool := startswith (strip line) (lit "{").
Definition closes (line : str) : bool := endswith (strip line) (lit "}").

(** Strategy 5: the lines from the first one that opens an object on. *)
Fixpoint accumulated (lines : list str) : list str :=
  match lines with
  | [] => []
  | line :: more => if opens line then lines else accumulated more
  end.

(** Strategy 5: for every accumulated line that closes an object, the
    accumulated lines up to and including it, joined by line feeds. *)
Definition line_texts (cleaned : str) : list str :=
  let acc := accumulated (split nl cleaned) in
  map (fun k => join [nl] (firstn k acc))
      (filter (fun k => closes (nth (k - 1) acc []))
              (seq 1 (length acc))).

(** The object under a key of a mapping. *)
Definition item (v : value) (k : str) : option value :=
  match v with
  | VDict d => dict_get d k
  | _ => None
  end.

Definition has_key (v : value) (k : str) : bool :=
  match item v k with Some _ => true | None => false end.

(** The keys of a mapping, in order. *)
Definition keys (v : value) : list str :=
  match v with
  | VDict d => map fst d
  | _ => []
  end.

(** The truncation marker. *)
Definition marker : str := lit "...".

(** ** The worked examples of the specification *)

Definition relational_text : str :=
  dq "{'schema_type':'relational','tables':[]}".

Definition relational_object : value :=
  VDict [ (lit "schema_type", VStr (lit "relational"));
          (lit "tables", VList []) ].

Definition fenced_text : str :=
  join [nl] [ lit "Here is the schema:";
              lit "```json";
              dq "{'schema_type':'nosql','collections':[]}";
              lit "```";
              lit "Enjoy!" ].

Definition nosql_object : value :=
  VDict [ (lit "schema_type", VStr (lit "nosql"));
          (lit "collections", VList []) ].

Definition prose_text : str := dq "Sure! {'x':1} Hope that helps.".

Definition trailing_comma_text : str := dq "{'a': [1,2,],}".

Definition no_json_text : str := lit "I cannot help with that.".

(** Prose with braces around an object whose fourth line closes a nested
    object only. *)
Definition nested_text : str :=
  join [nl] [ lit "x {";
              lit "{";
              dq "'a': {";
              lit "}";
              dq ",'b': 1";
              lit "}";
              lit "y }" ].

Definition nested_object : value :=
  VDict [ (lit "a", VDict []); (lit "b", VInt 1) ].

(** An object that has an [error] key of its own. *)
Definition error_object_text : str := dq "{'error': 1}".

(** A text of 1001 characters with nothing of JSON in it. *)
Definition long_text : str := repeat (chr "x") 1001.

(** Stand-ins for what the examples do not exercise. *)
Definition plain_str (e : exn) : str := [].
Definition plain_repr (v : value) : str := [].
Definition plain_upper (c : N) : str := [c].
Definition plain_nonzero (x : str) : bool := true.

(** ** Schemas for the diagram builders *)

(** The normalized tokens that have a connector of their own. *)
Definition known_tokens : list str :=
  [ lit "1:1"; lit "ONE_TO_ONE"; lit "1:N"; lit "ONE_TO_MANY";
    lit "M:N"; lit "MANY_TO_MANY" ].

(** The connector of a relationship whose [type] is the given word. *)
Definition connector_of (repr : value -> str) (unicode_upper : N -> str)
           (token : string) : str :=
  App2.connector (App2.normalize repr unicode_upper (VStr (lit token))).

(** A relational schema with the given tables. *)
Definition relational (tables : list value) : value :=
  VDict [ (lit "schema_type", VStr (lit "relational"));
          (lit "tables", VList tables) ].

(** A table without a name, with one field and one relationship that have
    no key at all. *)
Definition bare_table : value :=
  VDict [ (lit "fields", VList [VDict []]);
          (lit "relationships", VList [VDict []]) ].

(** A relationship of table [a] to table [b] through field [f]. *)
Definition relationship (type : string) : value :=
  VDict [ (lit "type", VStr (lit type));
          (lit "related_to", VStr (lit "b"));
          (lit "field", VStr (lit "f")) ].

Definition related_table : value :=
  VDict [ (lit "name", VStr (lit "a"));
          (lit "relationships",
           VList [ relationship "1:1"; relationship "one-to-one";
                   relationship "weird" ]) ].

(** What [graphviz.Digraph(comment='ER Diagram')] holds after
    [attr(rankdir='LR')]. *)
Definition empty_dot : App.digraph :=
  App.Digraph (lit "ER Diagram") [App.Attr (lit "rankdir") (lit "LR")].

(** ** For the further properties *)

(** A text of whitespace only. *)
Definition blank (s : str) : Prop := Forall (fun c => isspace c = true) s.

(** Neither a comma nor whitespace. *)
Definition kept (c : N) : bool :=
  negb (N.eqb c (chr ",")) && negb (isspace c).

(** The mapping of the [except] branch of [generate_schema]. *)
Definition generation_failure (exn_str : exn -> str) (e : exn) : value :=
  VDict [ (lit "error",
           VStr (lit "Schema generation failed: " ++ exn_str e));
          (lit "raw_response", VStr (exn_str e)) ].

(** [None], a boolean or a number: [in] raises [TypeError] on these. *)
Definition scalar (v : value) : bool :=
  match v with
  | VNone | VBool _ | VInt _ | VFloat _ => true
  | _ => false
  end.

(** A decoder that raises [TypeError] on every text. *)
Definition always_type_error (s : str) : result value := Raise TypeError.

Definition is_edge (st : App.dot_stmt) : bool :=
  match st with App.Edge _ _ _ => true | _ => false end.

(** The statement is the node of the item: it carries the item's name. *)
Definition node_of (item : value) (st : App.dot_stmt) : Prop :=
  exists name label,
    subscript item (lit "name") = Ok name /\ st = App.Node name label.

(* ================================================================== *)
(** * Lemmas on strings *)
(* ================================================================== *)

Lemma str_eqb_eq (a b : str) : str_eqb a b = true <-> a = b.
Proof.
  revert b; induction a as [|x a IH]; intros [|y b]; simpl;
    try (split; [discriminate | discriminate]); try tauto.
  rewrite andb_true_iff, N.eqb_eq, IH.
  split; [intros [-> ->]; reflexivity | intros H; inversion H; auto].
Qed.

(** A key that was set is found, with the value it was set to. *)
Lemma dict_get_set (d : dict) (k : str) (v : value) :
  dict_get (dict_set d k v) k = Some v.
Proof.
  assert (Hk : str_eqb k k = true) by (apply str_eqb_eq; reflexivity).
  induction d as [|[k' v'] d IH]; simpl.
  - rewrite Hk. reflexivity.
  - destruct (str_eqb k' k) eqn:E; simpl; rewrite E; [reflexivity | exact IH].
Qed.

(** Setting a key leaves the other keys as they were. *)
Lemma dict_get_set_other (d : dict) (k k' : str) (v : value) :
  k <> k' -> dict_get (dict_set d k v) k' = dict_get d k'.
Proof.
  intros Hne. induction d as [|[k0 v0] d IH]; simpl.
  - destruct (str_eqb k k') eqn:E; [|reflexivity].
    apply str_eqb_eq in E. contradiction.
  - destruct (str_eqb k0 k) eqn:E; simpl.
    + apply str_eqb_eq in E. subst k0.
      destruct (str_eqb k k') eqn:E'; [|reflexivity].
      apply str_eqb_eq in E'. contradiction.
    + rewrite IH. reflexivity.
Qed.

Lemma clamp_mid (n i : Z) : (0 <= i <= n)%Z -> clamp n i = i.
Proof. unfold clamp; intros H; destruct (Z.ltb_spec i 0); lia. Qed.

Lemma clamp_over (n i : Z) : (0 <= n <= i)%Z -> clamp n i = n.
Proof. unfold clamp; intros H; destruct (Z.ltb_spec i 0); lia. Qed.

(** [s[:n]] is the first [n] characters. *)
Lemma slice_prefix (s : str) (n : nat) :
  slice s 0 (Z.of_nat n) = firstn n s.
Proof.
  unfold slice, len.
  rewrite (@clamp_mid _ 0%Z) by lia.
  destruct (le_lt_dec n (length s)) as [Hle|Hgt].
  - rewrite clamp_mid by lia. simpl skipn.
    replace (Z.to_nat (Z.of_nat n - 0)) with n by lia. reflexivity.
  - rewrite clamp_over by lia. simpl skipn.
    replace (Z.to_nat (Z.of_nat (length s) - 0)) with (length s) by lia.
    rewrite !firstn_all2 by lia. reflexivity.
Qed.

Lemma find_from_app (c : N) (before after : str) (i : Z) :
  ~ In c before ->
  find_from c (before ++ c :: after) i = (i + len before)%Z.
Proof.
  revert i; induction before as [|x b IH]; intros i Hn; simpl.
  - rewrite N.eqb_refl. unfold len; simpl; lia.
  - destruct (N.eqb_spec x c) as [->|_].
    + exfalso; apply Hn; left; reflexivity.
    + rewrite IH by (intros H; apply Hn; right; exact H).
      unfold len; simpl length; lia.
Qed.

Lemma rfind_from_none (c : N) (s : str) (i best : Z) :
  ~ In c s -> rfind_from c s i best = best.
Proof.
  revert i best; induction s as [|x s IH]; intros i best Hn; simpl; auto.
  destruct (N.eqb_spec x c) as [->|_].
  - exfalso; apply Hn; left; reflexivity.
  - apply IH. intros H; apply Hn; right; exact H.
Qed.

Lemma rfind_from_app (c : N) (before after : str) (i best : Z) :
  ~ In c after ->
  rfind_from c (before ++ c :: after) i best = (i + len before)%Z.
Proof.
  revert i best; induction before as [|x b IH]; intros i best Hn; simpl.
  - rewrite N.eqb_refl, rfind_from_none by exact Hn.
    unfold len; simpl; lia.
  - rewrite IH by exact Hn. unfold len; simpl length; lia.
Qed.

Lemma firstn_exact {A} (x y : list A) : firstn (length x) (x ++ y) = x.
Proof. induction x as [|a x IH]; simpl; [destruct y|rewrite IH]; reflexivity. Qed.

Lemma skipn_exact {A} (x y : list A) : skipn (length x) (x ++ y) = y.
Proof. induction x as [|a x IH]; simpl; auto. Qed.

(** The slice between two positions that hold the two braces. *)
Lemma slice_between (before mid after : str) (a b : N) :
  slice (before ++ a :: mid ++ b :: after)
        (len before) (len before + len mid + 1 + 1)
  = a :: mid ++ [b].
Proof.
  unfold slice, len.
  set (s := before ++ a :: mid ++ b :: after).
  assert (Hlen : length s
                 = (length before + S (length mid + S (length after)))%nat).
  { unfold s. rewrite length_app. simpl. rewrite length_app. simpl. lia. }
  rewrite !clamp_mid by lia.
  replace (Z.to_nat (Z.of_nat (length before))) with (length before) by lia.
  replace (Z.to_nat _) with (length (a :: mid ++ [b]))
    by (simpl; rewrite length_app; simpl; lia).
  unfold s. rewrite skipn_exact.
  replace (a :: mid ++ b :: after) with ((a :: mid ++ [b]) ++ after)
    by (simpl; rewrite <- app_assoc; reflexivity).
  apply firstn_exact.
Qed.

(* ================================================================== *)
(** * The two patterns against their direct reading *)
(* ================================================================== *)

Lemma orelse_none_r {R} (x : option R) : orelse x None = x.
Proof. destruct x; reflexivity. Qed.

Lemma closer_cases (x : N) : closer x = true -> x = chr "}" \/ x = chr "]".
Proof.
  unfold closer. cbn [existsb]. rewrite orb_false_r, orb_true_iff, !N.eqb_eq.
  tauto.
Qed.

Lemma closer_not_space (x : N) : closer x = true -> isspace x = false.
Proof. intros H. destruct (closer_cases _ H) as [->| ->]; reflexivity. Qed.

Lemma closer_not_comma (x : N) : closer x = true -> N.eqb x (chr ",") = false.
Proof. intros H. destruct (closer_cases _ H) as [->| ->]; reflexivity. Qed.

Lemma space_not_closer (x : N) : isspace x = true -> closer x = false.
Proof.
  intros H. destruct (closer x) eqn:E; [|reflexivity].
  rewrite (closer_not_space _ E) in H. discriminate H.
Qed.

Lemma star_space_lstrip {R} (k : str -> option str -> option R) :
  (forall c u g, isspace c = true -> k (c :: u) g = None) ->
  forall t g, rmatch (Star Space) t g k = k (lstrip t) g.
Proof.
  intros Hk t g. cbn [rmatch].
  remember (length t) as n eqn:Hn.
  assert (Hle : length t <= n) by lia. clear Hn.
  revert t g Hle. induction n as [|n IH]; intros t g Hle.
  - destruct t; [reflexivity | simpl in Hle; lia].
  - destruct t as [|x u]; [reflexivity|].
    cbn [lstrip]. destruct (isspace x) eqn:Hx.
    + replace (length u <? length (x :: u)) with true
        by (symmetry; apply Nat.ltb_lt; simpl; lia).
      rewrite IH by (simpl in Hle; lia).
      rewrite (Hk _ _ _ Hx). apply orelse_none_r.
    + reflexivity.
Qed.

Lemma match_trailing_comma (c : N) (t : str) :
  match_here trailing_comma_re (c :: t)
  = if N.eqb c (chr ",") then
      match lstrip t with
      | x :: u => if closer x then Some (u, Some [x]) else None
      | [] => None
      end
    else None.
Proof.
  unfold match_here, trailing_comma_re. cbn [rmatch].
  destruct (N.eqb c (chr ",")); [|reflexivity].
  change ((fix loop (n : nat) (s : str) (g : option str) {struct n} := _) (length t) t None)
   with (rmatch (Star Space) t None (fun s' g' => rmatch (Group (OneOf [chr "}"; chr "]"])) s' g' (fun s'' g'' => Some (s'', g'')))).
  rewrite star_space_lstrip.
  - cbn [rmatch]. destruct (lstrip t) as [|x u]; [reflexivity|].
    fold (closer x). destruct (closer x); [|reflexivity].
    replace (length (x :: u) - length u) with 1 by (cbn [length]; lia).
    reflexivity.
  - intros x u g Hx. cbn [rmatch]. fold (closer x).
    rewrite (space_not_closer _ Hx). reflexivity.
Qed.

Lemma lstrip_length (t : str) : length (lstrip t) <= length t.
Proof.
  induction t as [|x u IH]; simpl; [lia|].
  destruct (isspace x); simpl; lia.
Qed.

Lemma repair_skipping (t : str) :
  repair_from true t = repair_from true (lstrip t).
Proof.
  induction t as [|x u IH]; [reflexivity|].
  cbn [lstrip]. destruct (isspace x) eqn:Hx; [|reflexivity].
  cbn [repair_from]. rewrite Hx. cbn [andb]. exact IH.
Qed.

Lemma sub_trailing_comma_from (n : nat) (s : str) :
  length s <= n ->
  sub_group1_from n trailing_comma_re s = repair_from false s.
Proof.
  revert s. induction n as [|n IH]; intros s Hle.
  - destruct s; [reflexivity | simpl in Hle; lia].
  - destruct s as [|c t]; [reflexivity|].
    cbn [sub_group1_from repair_from andb]. rewrite match_trailing_comma.
    unfold before_closer.
    pose proof (lstrip_length t) as Hl.
    destruct (N.eqb c (chr ",")).
    + rewrite repair_skipping.
      destruct (lstrip t) as [|x u] eqn:Et.
      * cbn [andb]. rewrite IH by (simpl in Hle; lia). reflexivity.
      * destruct (closer x) eqn:Hx; cbn [andb].
        -- replace (length u <? length (c :: t)) with true
             by (symmetry; apply Nat.ltb_lt; simpl in *; lia).
           cbn [group1 app repair_from].
           rewrite (closer_not_space _ Hx), (closer_not_comma _ Hx).
           cbn [andb]. rewrite IH by (simpl in *; lia). reflexivity.
        -- rewrite IH by (simpl in Hle; lia). reflexivity.
    + cbn [andb]. rewrite IH by (simpl in Hle; lia). reflexivity.
Qed.

(** [re.sub] with the pattern of the repair drops every comma that a
    closing brace or bracket follows, and the whitespace in between. *)
Lemma sub_trailing_comma (s : str) :
  sub_group1 trailing_comma_re s = repair_commas s.
Proof. apply sub_trailing_comma_from. apply Nat.le_refl. Qed.

(** Whitespace apart, the repair removes exactly the commas that a closing
    brace or bracket follows. *)
Lemma repair_visible (b : bool) (s : str) :
  visible (repair_from b s) = visible (drop_trailing_commas s).
Proof.
  revert b; induction s as [|c t IH]; intros b; [reflexivity|].
  cbn [repair_from drop_trailing_commas].
  destruct (isspace c) eqn:Hc.
  - assert (Hn : N.eqb c (chr ",") = false).
    { destruct (N.eqb_spec c (chr ",")) as [->|]; [discriminate Hc | reflexivity]. }
    rewrite Hn. cbn [andb]. destruct b; cbn [andb].
    + unfold visible at 2. cbn [filter]. rewrite Hc. cbn [negb]. apply IH.
    + unfold visible. cbn [filter]. rewrite Hc. cbn [negb]. apply IH.
  - rewrite andb_false_r.
    destruct (N.eqb c (chr ",") && before_closer t); [apply IH|].
    unfold visible. cbn [filter]. rewrite Hc. cbn [negb].
    f_equal. apply IH.
Qed.

Lemma word_startswith {R} (w s : str) (g : option str)
      (k : str -> option str -> option R) :
  rmatch (word w) s g k
  = if startswith s w then k (skipn (length w) s) g else None.
Proof.
  revert s; induction w as [|c w IH]; intros s.
  - destruct s; reflexivity.
  - cbn [word rmatch]. destruct s as [|x s]; [reflexivity|].
    cbn [startswith length skipn].
    rewrite (N.eqb_sym c x). destruct (N.eqb x c); [apply IH | reflexivity].
Qed.

Lemma lazy_dot_first_suffix {R} (k : str -> option str -> option R)
      (s : str) (g : option str) :
  rmatch (StarLazy Dot) s g k = first_suffix (fun s' => k s' g) s.
Proof.
  cbn [rmatch].
  remember (length s) as n eqn:Hn.
  assert (Hle : length s <= n) by lia. clear Hn.
  revert s Hle. induction n as [|n IH]; intros s Hle.
  - destruct s; [|simpl in Hle; lia]. cbn [first_suffix].
    symmetry; apply orelse_none_r.
  - destruct s as [|x u]; [reflexivity|].
    cbn [first_suffix].
    replace (length u <? length (x :: u)) with true
      by (symmetry; apply Nat.ltb_lt; simpl; lia).
    rewrite IH by (simpl in Hle; lia). reflexivity.
Qed.

Lemma startswith_app (s a b : str) :
  startswith s (a ++ b) = startswith s a && startswith (skipn (length a) s) b.
Proof.
  revert s; induction a as [|x a IH]; intros s.
  - destruct s; reflexivity.
  - destruct s as [|y s]; [reflexivity|].
    cbn [app startswith length skipn]. rewrite IH, andb_assoc. reflexivity.
Qed.

Lemma skipn_skipn_add {A} (n m : nat) (l : list A) :
  skipn n (skipn m l) = skipn (m + n) l.
Proof.
  revert l; induction m as [|m IH]; intros l; [reflexivity|].
  destruct l as [|x l]; [destruct n; reflexivity|]. apply IH.
Qed.

Lemma close_fence (s : str) (g : option str) :
  rmatch (Cat (Lit nl) (word fence)) s g (fun s' g' => Some (s', g'))
  = closing s g.
Proof.
  unfold closing. cbn [rmatch]. destruct s as [|x u]; [reflexivity|].
  cbn [startswith]. rewrite (N.eqb_sym nl x).
  destruct (N.eqb x nl); [|reflexivity].
  rewrite word_startswith. reflexivity.
Qed.

Lemma first_suffix_find_close (s p w : str) :
  w = p ++ s ->
  first_suffix
    (fun s' => closing s' (Some (firstn (length w - length s') w))) s
  = match find_close s with
    | Some (body, rest) => Some (rest, Some (p ++ body))
    | None => None
    end.
Proof.
  revert p; induction s as [|c t IH]; intros p Hw.
  - cbn. reflexivity.
  - cbn [first_suffix find_close]. unfold closing at 1.
    destruct (startswith (c :: t) (nl :: fence)) eqn:E.
    + cbn [orelse]. rewrite app_nil_r. subst w.
      replace (length (p ++ c :: t) - length (c :: t)) with (length p)
        by (rewrite length_app; lia).
      rewrite firstn_exact. reflexivity.
    + cbn [orelse]. rewrite (IH (p ++ [c])).
      * destruct (find_close t) as [[body rest]|]; [|reflexivity].
        rewrite <- app_assoc. reflexivity.
      * rewrite <- app_assoc. exact Hw.
Qed.

Lemma first_suffix_ext {R} (k1 k2 : str -> option R) (s : str) :
  (forall s', k1 s' = k2 s') -> first_suffix k1 s = first_suffix k2 s.
Proof.
  intros H. induction s as [|c t IH]; cbn [first_suffix]; rewrite H;
    [reflexivity | rewrite IH; reflexivity].
Qed.

Lemma body_and_close (t : str) (g : option str) :
  rmatch (Cat (Group (StarLazy Dot)) (Cat (Lit nl) (word fence))) t g
         (fun s' g' => Some (s', g'))
  = match find_close t with
    | Some (body, rest) => Some (rest, Some body)
    | None => None
    end.
Proof.
  change (rmatch (Cat (Group (StarLazy Dot)) (Cat (Lit nl) (word fence))) t g
            (fun s' g' => Some (s', g')))
    with (rmatch (StarLazy Dot) t g
            (fun s' _ =>
               rmatch (Cat (Lit nl) (word fence)) s'
                      (Some (firstn (length t - length s') t))
                      (fun s'' g'' => Some (s'', g'')))).
  rewrite lazy_dot_first_suffix.
  transitivity
    (first_suffix
       (fun s' => closing s' (Some (firstn (length t - length s') t))) t).
  - apply first_suffix_ext. intros s'. apply close_fence.
  - apply (@first_suffix_find_close t [] t eq_refl).
Qed.

Lemma json_not_nl (s : str) :
  startswith s (lit "json") = true -> startswith s [nl] = false.
Proof.
  intros H. destruct s as [|x u]; [discriminate H|].
  change (lit "json") with (106%N :: lit "son") in H.
  cbn [startswith] in H. apply andb_true_iff in H. destruct H as [H _].
  apply N.eqb_eq in H. subst x. reflexivity.
Qed.

Lemma rmatch_cat {R} (a b : regex) (s : str) (g : option str)
      (k : str -> option str -> option R) :
  rmatch (Cat a b) s g k = rmatch a s g (fun s' g' => rmatch b s' g' k).
Proof. reflexivity. Qed.

Lemma rmatch_opt {R} (a : regex) (s : str) (g : option str)
      (k : str -> option str -> option R) :
  rmatch (Opt a) s g k = orelse (rmatch a s g k) (k s g).
Proof. reflexivity. Qed.

Lemma rmatch_lit {R} (c : N) (s : str) (g : option str)
      (k : str -> option str -> option R) :
  rmatch (Lit c) s g k
  = if startswith s [c] then k (skipn 1 s) g else None.
Proof.
  destruct s as [|x u]; [reflexivity|].
  cbn [rmatch startswith skipn]. rewrite (N.eqb_sym c x).
  destruct (N.eqb x c); [destruct u|]; reflexivity.
Qed.

Lemma line_body_close (u : str) (g : option str) :
  rmatch (Cat (Lit nl)
              (Cat (Group (StarLazy Dot)) (Cat (Lit nl) (word fence))))
         u g (fun s' g' => Some (s', g'))
  = if startswith u [nl]
    then match find_close (skipn 1 u) with
         | Some (body, rest) => Some (rest, Some body)
         | None => None
         end
    else None.
Proof.
  rewrite rmatch_cat, rmatch_lit.
  destruct (startswith u [nl]); [apply body_and_close | reflexivity].
Qed.

Lemma match_here_region (s : str) :
  match_here code_block_re s
  = match region_here s with
    | Some (body, rest) => Some (rest, Some body)
    | None => None
    end.
Proof.
  unfold match_here, code_block_re, region_here, open_fence. fold fence.
  rewrite rmatch_cat, word_startswith, !startswith_app.
  destruct (startswith s fence); [|reflexivity]. cbn [andb].
  set (s1 := skipn (length fence) s).
  rewrite rmatch_cat, rmatch_opt, word_startswith, !line_body_close.
  destruct (startswith s1 (lit "json")) eqn:Ej.
  - rewrite (json_not_nl _ Ej). cbn [andb orelse].
    rewrite orelse_none_r.
    destruct (startswith (skipn (length (lit "json")) s1) [nl]);
      [|reflexivity].
    unfold s1. rewrite !skipn_skipn_add. reflexivity.
  - cbn [andb orelse].
    destruct (startswith s1 [nl]); [|reflexivity].
    unfold s1. rewrite !skipn_skipn_add. reflexivity.
Qed.

Lemma find_close_shorter (s body rest : str) :
  find_close s = Some (body, rest) -> length rest <= length s.
Proof.
  revert body rest; induction s as [|c t IH]; intros body rest.
  - cbn. discriminate.
  - cbn [find_close].
    destruct (startswith (c :: t) (nl :: fence)).
    + intros H. replace rest with (skipn 4 (c :: t)) by congruence.
      rewrite length_skipn. lia.
    + destruct (find_close t) as [[b r]|]; [|discriminate].
      intros H. replace rest with r by congruence.
      specialize (IH _ _ eq_refl). simpl. lia.
Qed.

Lemma region_here_shorter (s body rest : str) :
  region_here s = Some (body, rest) -> length rest < length s.
Proof.
  unfold region_here, open_fence.
  destruct (startswith s (fence ++ lit "json" ++ [nl])) eqn:E1.
  - intros H. apply find_close_shorter in H. rewrite length_skipn in H.
    destruct s; [discriminate E1 | simpl in *; lia].
  - destruct (startswith s (fence ++ [nl])) eqn:E2; [|discriminate].
    intros H. apply find_close_shorter in H. rewrite length_skipn in H.
    destruct s; [discriminate E2 | simpl in *; lia].
Qed.

Lemma findall_regions_from (n : nat) (s : str) :
  findall_from n code_block_re s = regions_from n s.
Proof.
  revert s; induction n as [|n IH]; intros s; [reflexivity|].
  destruct s as [|c t]; [reflexivity|].
  cbn [findall_from regions_from]. rewrite match_here_region.
  destruct (region_here (c :: t)) as [[body rest]|] eqn:E; [|apply IH].
  apply region_here_shorter in E.
  replace (length rest <? length (c :: t)) with true
    by (symmetry; apply Nat.ltb_lt; exact E).
  cbn [group1]. rewrite IH. reflexivity.
Qed.

(** [re.findall] with the pattern of the fenced-block scan returns the
    bodies of the fenced regions, in document order. *)
Lemma findall_fenced_regions (s : str) :
  findall code_block_re s = fenced_regions s.
Proof. apply findall_regions_from. Qed.

(* ================================================================== *)
(** * The extraction functions as cascades *)
(* ================================================================== *)

Section CascadeLemmas.
Variable json_loads : str -> result value.

Lemma first_parse_app (a b : list str) (rest : result value) :
  first_parse json_loads (a ++ b) rest
  = first_parse json_loads a (first_parse json_loads b rest).
Proof.
  induction a as [|t a IH]; simpl; [reflexivity|].
  destruct (json_loads t) as [v|[]]; auto.
Qed.

Lemma first_parse_refused (texts : list str) (rest : result value) :
  Forall (refused json_loads) texts ->
  first_parse json_loads texts rest = rest.
Proof.
  induction 1 as [|t texts Ht _ IH]; simpl; [reflexivity|].
  rewrite Ht. exact IH.
Qed.

Lemma first_parse_hit (pre post : list str) (t : str) (v : value)
      (rest : result value) :
  Forall (refused json_loads) pre ->
  json_loads t = Ok v ->
  first_parse json_loads (pre ++ t :: post) rest = Ok v.
Proof.
  intros Hpre Ht.
  rewrite first_parse_app, first_parse_refused by exact Hpre.
  simpl. rewrite Ht. reflexivity.
Qed.

(** The cascade comes to the first text that is not refused, or to
    [rest] when there is none. *)
Lemma first_parse_first (texts : list str) (rest r : result value) :
  first_parse json_loads texts rest = r
  <-> Forall (refused json_loads) texts /\ r = rest
      \/ exists t, first_not_refused json_loads texts t /\ r = json_loads t.
Proof.
  split.
  - revert r. induction texts as [|t texts IH]; intros r H.
    + left. split; [constructor | symmetry; exact H].
    + cbn [first_parse] in H.
      assert (Hhere : ~ refused json_loads t -> r = json_loads t ->
                      exists t', first_not_refused json_loads (t :: texts) t'
                                 /\ r = json_loads t').
      { intros Hn Hr. exists t. split; [|exact Hr].
        exists [], texts. split; [reflexivity|].
        split; [constructor | exact Hn]. }
      destruct (json_loads t) as [v|e] eqn:Ht.
      * right. apply Hhere; [unfold refused; congruence | congruence].
      * destruct e;
          try (right; apply Hhere; [unfold refused; congruence | congruence]).
        destruct (IH r H) as [[Hall Hr]|[t' [[pre [post [Ht' [Hpre Hn]]]] Hr]]].
        -- left. split; [constructor; [exact Ht | exact Hall] | exact Hr].
        -- right. exists t'. split; [|exact Hr].
           exists (t :: pre), post. split; [rewrite Ht'; reflexivity|].
           split; [constructor; [exact Ht | exact Hpre] | exact Hn].
  - intros [[Hall ->]|[t [[pre [post [-> [Hpre Hn]]]] ->]]].
    + apply first_parse_refused. exact Hall.
    + rewrite first_parse_app, first_parse_refused by exact Hpre.
      cbn [first_parse]. unfold refused in Hn.
      destruct (json_loads t) as [v|e]; [reflexivity|].
      destruct e; try reflexivity. contradiction.
Qed.

Lemma first_parse_total (texts : list str) (x : value) :
  decode_errors_on json_loads texts ->
  exists v, first_parse json_loads texts (Ok x) = Ok v.
Proof.
  intros Hd. induction texts as [|t texts IH]; simpl.
  - exists x; reflexivity.
  - destruct (json_loads t) as [v|e] eqn:Ht.
    + exists v; reflexivity.
    + rewrite (Hd t e (or_introl eq_refl) Ht). apply IH.
      intros t' e' Hin. apply Hd. right; exact Hin.
Qed.

Lemma app_scan_blocks (blocks : list str) (rest : result value) :
  App.scan_blocks json_loads blocks rest
  = first_parse json_loads (map strip blocks) rest.
Proof.
  induction blocks as [|b blocks IH]; simpl; [reflexivity|].
  unfold App.try_loads. rewrite IH. reflexivity.
Qed.

Lemma app2_scan_blocks (blocks : list str) (rest : result value) :
  App2.scan_blocks json_loads blocks rest
  = first_parse json_loads (map strip blocks) rest.
Proof.
  induction blocks as [|b blocks IH]; simpl; [reflexivity|].
  unfold App2.try_loads. rewrite IH. reflexivity.
Qed.

(** Once accumulation has begun, the loop of strategy 5 tries the
    accumulated lines at every closing line. *)
Lemma scan_lines_accumulating (more done : list str)
      (rest : result value) :
  App.scan_lines json_loads more done true rest
  = first_parse json_loads
      (map (fun k => join [nl] (firstn k (done ++ more)))
           (filter (fun k => closes (nth (k - 1) (done ++ more) []))
                   (seq (S (length done)) (length more))))
      rest.
Proof.
  revert done; induction more as [|l m IH]; intros done.
  - reflexivity.
  - simpl App.scan_lines. rewrite orb_true_r.
    simpl length. simpl seq. simpl filter.
    rewrite Nat.sub_0_r, nth_middle.
    specialize (IH (done ++ [l])).
    rewrite <- app_assoc in IH. simpl app in IH.
    rewrite length_app in IH. simpl length in IH.
    rewrite Nat.add_1_r in IH.
    fold (closes l). destruct (closes l); cbn [map first_parse].
    + unfold App.try_loads.
      replace (firstn (S (length done)) (done ++ l :: m))
        with (done ++ [l]).
      * rewrite IH. reflexivity.
      * replace (done ++ l :: m) with ((done ++ [l]) ++ m)
          by (rewrite <- app_assoc; reflexivity).
        replace (S (length done)) with (length (done ++ [l]))
          by (rewrite length_app; simpl; lia).
        symmetry; apply firstn_exact.
    + exact IH.
Qed.

Lemma scan_lines_texts (lines : list str) (rest : result value) :
  App.scan_lines json_loads lines [] false rest
  = first_parse json_loads
      (let acc := accumulated lines in
       map (fun k => join [nl] (firstn k acc))
           (filter (fun k => closes (nth (k - 1) acc []))
                   (seq 1 (length acc))))
      rest.
Proof.
  induction lines as [|l m IH].
  - reflexivity.
  - simpl accumulated. destruct (opens l) eqn:Ho.
    + transitivity (App.scan_lines json_loads (l :: m) [] true rest);
        [| exact (scan_lines_accumulating (l :: m) [] rest)].
      simpl. unfold opens in Ho. rewrite Ho. reflexivity.
    + simpl App.scan_lines. unfold opens in Ho. rewrite Ho.
      simpl orb. cbv iota. exact IH.
Qed.

Lemma brace_texts_cases (cleaned : str) :
  let i := find cleaned (chr "{") in
  let j := rfind cleaned (chr "}") in
  negb (i =? -1)%Z && negb (j =? -1)%Z = false /\ brace_texts cleaned = []
  \/ negb (i =? -1)%Z && negb (j =? -1)%Z = true
     /\ brace_texts cleaned
        = [slice cleaned i (j + 1);
           repair_commas (slice cleaned i (j + 1))].
Proof.
  unfold brace_texts. cbv zeta.
  destruct (find cleaned (chr "{") =? -1)%Z,
           (rfind cleaned (chr "}") =? -1)%Z; simpl; auto.
Qed.

(** [extract_json_from_response] of src/app.py parses the texts of the
    five strategies in order and returns the first that parses. *)
Lemma app_extract_cascade (response : str) :
  App.extract_json_from_response json_loads response
  = first_parse json_loads
      (strategy_texts response ++ line_texts (strip response))
      (Ok (App.failure (strip response))).
Proof.
  unfold strategy_texts. cbv zeta.
  rewrite !first_parse_app. cbn [first_parse].
  unfold App.extract_json_from_response. cbv zeta.
  rewrite app_scan_blocks, scan_lines_texts.
  rewrite findall_fenced_regions, sub_trailing_comma.
  fold (line_texts (strip response)).
  fold (fenced_texts (strip response)).
  unfold App.try_loads.
  destruct (json_loads (strip response)) as [v|[]]; try reflexivity.
  f_equal.
  destruct (brace_texts_cases (strip response)) as [[Hc ->]|[Hc ->]];
    cbv zeta in Hc; rewrite Hc; reflexivity.
Qed.

(** [extract_json_from_response] of src/app2.py parses the texts of the
    first four strategies in order and returns the first that parses. *)
Lemma app2_extract_cascade (response : str) :
  App2.extract_json_from_response json_loads response
  = first_parse json_loads (strategy_texts response)
      (Ok (App2.failure (strip response))).
Proof.
  unfold strategy_texts. cbv zeta.
  rewrite !first_parse_app. cbn [first_parse].
  unfold App2.extract_json_from_response. cbv zeta.
  rewrite app2_scan_blocks.
  rewrite findall_fenced_regions, sub_trailing_comma.
  fold (fenced_texts (strip response)).
  unfold App2.try_loads.
  destruct (json_loads (strip response)) as [v|[]]; try reflexivity.
  f_equal.
  destruct (brace_texts_cases (strip response)) as [[Hc ->]|[Hc ->]];
    cbv zeta in Hc; rewrite Hc; reflexivity.
Qed.
End CascadeLemmas.

(* ================================================================== *)
(** * Properties of the extraction *)
(* ================================================================== *)

Lemma decode_errors_check (json_loads : str -> result value)
      (texts : list str) :
  decode_errors_onb json_loads texts = true ->
  decode_errors_on json_loads texts.
Proof.
  unfold decode_errors_onb, decode_errors_on. intros H t e Hin Ht.
  rewrite forallb_forall in H. specialize (H t Hin). rewrite Ht in H.
  destruct e; first [reflexivity | discriminate H].
Qed.

Lemma first_parse_agree (json_loads : str -> result value)
      (texts : list str) (r1 r2 : result value) :
  (exists t v, In t texts /\ json_loads t = Ok v) ->
  first_parse json_loads texts r1 = first_parse json_loads texts r2.
Proof.
  induction texts as [|t texts IH]; intros [t' [v [Hin Hv]]].
  - destruct Hin.
  - simpl. destruct (json_loads t) as [w|e] eqn:Ht; [reflexivity|].
    destruct e; try reflexivity.
    apply IH. destruct Hin as [->|Hin]; [congruence|].
    exists t', v. split; assumption.
Qed.

Lemma Forall_app_l {A} (P : A -> Prop) (a b : list A) :
  Forall P (a ++ b) -> Forall P a.
Proof. intros H. apply Forall_app in H. tauto. Qed.

Lemma refusedb_refused (json_loads : str -> result value) (t : str) :
  refusedb json_loads t = true -> refused json_loads t.
Proof.
  unfold refusedb, refused.
  destruct (json_loads t) as [v|[]]; intros H; try discriminate H.
  reflexivity.
Qed.

Lemma all_refused (json_loads : str -> result value) (texts : list str) :
  forallb (refusedb json_loads) texts = true ->
  Forall (refused json_loads) texts.
Proof.
  intros H. apply Forall_forall. intros t Ht.
  apply refusedb_refused.
  rewrite forallb_forall in H. apply H. exact Ht.
Qed.

(** When every text tried is refused, the failure mapping is returned. *)
Lemma app_extract_failure (json_loads : str -> result value)
      (response : str) :
  Forall (refused json_loads)
    (strategy_texts response ++ line_texts (strip response)) ->
  App.extract_json_from_response json_loads response
  = Ok (App.failure (strip response)).
Proof. rewrite app_extract_cascade. apply first_parse_refused. Qed.

Lemma app2_extract_failure (json_loads : str -> result value)
      (response : str) :
  Forall (refused json_loads) (strategy_texts response) ->
  App2.extract_json_from_response json_loads response
  = Ok (App2.failure (strip response)).
Proof. rewrite app2_extract_cascade. apply first_parse_refused. Qed.

(** An exception that escapes the extraction was raised by [json.loads]
    and is not [JSONDecodeError]. *)
Lemma first_parse_raises (json_loads : str -> result value)
      (texts : list str) (x : value) (e : exn) :
  first_parse json_loads texts (Ok x) = Raise e ->
  e <> JSONDecodeError /\ exists t, In t texts /\ json_loads t = Raise e.
Proof.
  induction texts as [|t texts IH]; simpl; [discriminate|].
  destruct (json_loads t) as [v|e'] eqn:Ht; [discriminate|].
  destruct e';
    [ intros H; destruct (IH H) as [Hne [t' [Hin Ht']]];
      split; [exact Hne|]; exists t'; split; [right; exact Hin | exact Ht']
    | intros H; injection H as <-; (split; [discriminate|]);
      exists t; split; [left; reflexivity | exact Ht] .. ].
Qed.

(** Arrays nested deeper than the interpreter allows make the scanner
    raise [RecursionError], whatever the room. *)
Lemma scan_once_deep (room n : nat) (rest : str) :
  2 * room < n ->
  Json.scan_once n room (repeat (chr "[") (S room) ++ rest)
  = Raise RecursionError.
Proof.
  revert n rest; induction room as [|room IH]; intros n rest Hn.
  - destruct n as [|n]; [lia|]. reflexivity.
  - destruct n as [|[|n]]; try lia.
    change (repeat (chr "[") (S (S room)) ++ rest)
      with (chr "[" :: chr "[" :: repeat (chr "[") room ++ rest).
    cbn [Json.scan_once Json.skip_ws].
    change (chr "[" =? 34)%N with false.
    change (chr "[" =? 123)%N with false.
    change (chr "[" =? 91)%N with true.
    change (chr "[" =? 93)%N with false.
    change (Json.is_ws (chr "[")) with false. cbv iota.
    change (chr "[" =? 93)%N with false. cbv iota.
    cbn [Json.parse_elements].
    change (chr "[" :: repeat (chr "[") room ++ rest)
      with (repeat (chr "[") (S room) ++ rest).
    rewrite IH by lia. reflexivity.
Qed.

Lemma loads_deep (room : nat) :
  Json.loads_within room (repeat (chr "[") (S room)) = Raise RecursionError.
Proof.
  unfold Json.loads_within.
  change (startswith (repeat (chr "[") (S room)) [65279%N]) with false.
  change (Json.skip_ws (repeat (chr "[") (S room)))
    with (repeat (chr "[") (S room)).
  rewrite <- (app_nil_r (repeat (chr "[") (S room))) at 2.
  rewrite scan_once_deep; [reflexivity|].
  rewrite repeat_length. lia.
Qed.

Lemma strip_solid (s : str) :
  Forall (fun c => isspace c = false) s -> strip s = s.
Proof.
  assert (Hl : forall u, Forall (fun c => isspace c = false) u ->
                         lstrip u = u).
  { intros u Hu. destruct Hu as [|c u Hc _]; [reflexivity|].
    simpl. rewrite Hc. reflexivity. }
  intros H. unfold strip, rstrip. rewrite (Hl s H).
  rewrite Hl by (apply Forall_rev; exact H). apply rev_involutive.
Qed.

(** [RecursionError] escapes the extraction too, in both files, whatever
    nesting the interpreter allows. *)
Lemma deep_nesting_escapes (room : nat) :
  App.extract_json_from_response (Json.loads_within room)
    (repeat (chr "[") (S room))
  = Raise RecursionError
  /\ App2.extract_json_from_response (Json.loads_within room)
       (repeat (chr "[") (S room))
     = Raise RecursionError.
Proof.
  unfold App.extract_json_from_response, App2.extract_json_from_response,
    App.try_loads, App2.try_loads.
  cbv zeta. rewrite strip_solid.
  - rewrite loads_deep. split; reflexivity.
  - apply Forall_forall. intros c Hc. apply repeat_spec in Hc. subst c.
    reflexivity.
Qed.

(** C1, as stated, fails: [json.loads] raises [ValueError], which is no
    [JSONDecodeError], on an integer literal of 4301 digits, and the
    exception escapes [extract_json_from_response] in both files. *)
Lemma long_integer_escapes :
  App.extract_json_from_response Json.loads (repeat (chr "1") 4301)
  = Raise ValueError
  /\ App2.extract_json_from_response Json.loads (repeat (chr "1") 4301)
     = Raise ValueError.
Proof. split; vm_compute; reflexivity. Qed.

(** C1 (as amended).  [extract_json_from_response] catches
    [JSONDecodeError] and nothing else.  In both files it raises exactly
    when the first text tried that [json.loads] does not refuse makes
    [json.loads] raise, and then the exception of [json.loads] is the one
    that escapes; so it returns a result for every response on whose
    texts [json.loads] raises nothing but [JSONDecodeError]. *)
Theorem extract_raises_what_loads_lets_through
        (json_loads : str -> result value) (response : str) :
  let texts := strategy_texts response ++ line_texts (strip response) in
  let texts2 := strategy_texts response in
  (forall e,
      App.extract_json_from_response json_loads response = Raise e
      <-> exists t, first_not_refused json_loads texts t
                    /\ json_loads t = Raise e)
  /\ (forall e,
        App2.extract_json_from_response json_loads response = Raise e
        <-> exists t, first_not_refused json_loads texts2 t
                      /\ json_loads t = Raise e)
  /\ (decode_errors_on json_loads texts ->
      exists v, App.extract_json_from_response json_loads response = Ok v)
  /\ (decode_errors_on json_loads texts2 ->
      exists v, App2.extract_json_from_response json_loads response = Ok v).
Proof.
  cbv zeta. rewrite app_extract_cascade, app2_extract_cascade.
  assert (Hraise : forall texts x e,
             first_parse json_loads texts (Ok x) = Raise e
             <-> exists t, first_not_refused json_loads texts t
                           /\ json_loads t = Raise e).
  { intros texts x e. rewrite first_parse_first. split.
    - intros [[_ H]|[t [Hf H]]]; [discriminate H|].
      exists t. split; [exact Hf | symmetry; exact H].
    - intros [t [Hf H]]. right. exists t.
      split; [exact Hf | symmetry; exact H]. }
  split; [intros e; apply Hraise|].
  split; [intros e; apply Hraise|].
  split; apply first_parse_total.
Qed.

(** The empty string and a string of whitespace are answered with a
    result. *)
Lemma extract_raises_what_loads_lets_through_witness :
  (decode_errors_on Json.loads (strategy_texts [] ++ line_texts (strip []))
   /\ exists v, App.extract_json_from_response Json.loads [] = Ok v)
  /\ (decode_errors_on Json.loads (strategy_texts (lit "   "))
      /\ exists v,
           App2.extract_json_from_response Json.loads (lit "   ") = Ok v).
Proof.
  assert (H : decode_errors_on Json.loads
                (strategy_texts [] ++ line_texts (strip [])))
    by (apply decode_errors_check; vm_compute; reflexivity).
  assert (H2 : decode_errors_on Json.loads (strategy_texts (lit "   ")))
    by (apply decode_errors_check; vm_compute; reflexivity).
  split; (split; [assumption|]).
  - exact (proj1 (proj2 (proj2
             (@extract_raises_what_loads_lets_through Json.loads []))) H).
  - exact (proj2 (proj2 (proj2
             (@extract_raises_what_loads_lets_through Json.loads
                (lit "   ")))) H2).
Defined.

(** C3.  When the trimmed response parses, [extract_json_from_response]
    returns exactly that parse, in both files; no later strategy runs. *)
Theorem direct_parse_returned (json_loads : str -> result value)
        (response : str) (v : value) :
  json_loads (strip response) = Ok v ->
  App.extract_json_from_response json_loads response = Ok v
  /\ App2.extract_json_from_response json_loads response = Ok v.
Proof.
  intros H.
  unfold App.extract_json_from_response, App2.extract_json_from_response,
    App.try_loads, App2.try_loads.
  cbv zeta. rewrite H. split; reflexivity.
Qed.

(** The example of the specification: the relational document comes back
    as its parse. *)
Lemma direct_parse_returned_witness :
  Json.loads (strip relational_text) = Ok relational_object
  /\ App.extract_json_from_response Json.loads relational_text
     = Ok relational_object
  /\ App2.extract_json_from_response Json.loads relational_text
     = Ok relational_object.
Proof.
  split; [vm_compute; reflexivity|].
  apply (@direct_parse_returned Json.loads relational_text relational_object).
  vm_compute; reflexivity.
Defined.



(** The first opening brace and the last closing brace delimit the slice
    of strategies 3 and 4. *)
Lemma brace_texts_between (before mid after : str) :
  ~ In (chr "{") before ->
  ~ In (chr "}") after ->
  brace_texts (before ++ chr "{" :: mid ++ chr "}" :: after)
  = [ chr "{" :: mid ++ [chr "}"];
      repair_commas (chr "{" :: mid ++ [chr "}"]) ].
Proof.
  intros Hb Ha. unfold brace_texts, find, rfind. cbv zeta.
  rewrite find_from_app by exact Hb.
  assert (Hr : rfind_from (chr "}")
                 (before ++ chr "{" :: mid ++ chr "}" :: after) 0 (-1)
               = (0 + len (before ++ chr "{" :: mid))%Z).
  { replace (before ++ chr "{" :: mid ++ chr "}" :: after)
      with ((before ++ chr "{" :: mid) ++ chr "}" :: after)
      by (rewrite <- app_assoc; reflexivity).
    apply rfind_from_app; exact Ha. }
  rewrite Hr.
  assert (Hl : len (before ++ chr "{" :: mid)
               = (len before + len mid + 1)%Z).
  { unfold len. rewrite length_app. simpl length. lia. }
  rewrite Hl.
  assert (H0 : (0 <= len before)%Z /\ (0 <= len mid)%Z)
    by (unfold len; lia).
  destruct (Z.eqb_spec (0 + len before) (-1)); [lia|].
  destruct (Z.eqb_spec (0 + (len before + len mid + 1)) (-1)); [lia|].
  simpl orb. cbv iota.
  replace (0 + len before)%Z with (len before) by lia.
  replace (0 + (len before + len mid + 1) + 1)%Z
    with (len before + len mid + 1 + 1)%Z by lia.
  rewrite slice_between. reflexivity.
Qed.

(** C6.  When the trimmed response and every fenced region are refused and
    the text has an opening brace before a closing brace, the slice from
    the first opening brace to the last closing brace, both included, is
    parsed; when it is refused, the same slice with its trailing commas
    removed is parsed.  Whichever parses first is returned, in both files.
    The repair removes, whitespace apart, exactly the commas that a
    closing brace or bracket follows; [sub_trailing_comma] shows that it
    is what [re.sub] returns for the pattern of the source. *)
Theorem outer_brace_slice (json_loads : str -> result value)
        (response before mid after : str) (v : value) :
  strip response = before ++ chr "{" :: mid ++ chr "}" :: after ->
  ~ In (chr "{") before ->
  ~ In (chr "}") after ->
  refused json_loads (strip response) ->
  Forall (refused json_loads) (fenced_texts (strip response)) ->
  json_loads (chr "{" :: mid ++ [chr "}"]) = Ok v
  \/ refused json_loads (chr "{" :: mid ++ [chr "}"])
     /\ json_loads (repair_commas (chr "{" :: mid ++ [chr "}"])) = Ok v ->
  (App.extract_json_from_response json_loads response = Ok v
   /\ App2.extract_json_from_response json_loads response = Ok v)
  /\ visible (repair_commas (chr "{" :: mid ++ [chr "}"]))
     = visible (drop_trailing_commas (chr "{" :: mid ++ [chr "}"])).
Proof.
  intros Hs Hb Ha H1 H2 H34.
  split; [|apply repair_visible].
  assert (Hhit : forall more rest,
             first_parse json_loads (strategy_texts response ++ more) rest
             = Ok v).
  { intros more rest. unfold strategy_texts. cbv zeta.
    rewrite Hs at 3. rewrite brace_texts_between by assumption.
    rewrite <- !app_assoc.
    rewrite first_parse_app. cbn [first_parse].
    rewrite H1, first_parse_app, first_parse_refused by exact H2.
    cbn [first_parse app]. destruct H34 as [H3|[H3 H4]].
    - rewrite H3. reflexivity.
    - rewrite H3, H4. reflexivity. }
  rewrite app_extract_cascade, app2_extract_cascade.
  split; [apply Hhit|].
  rewrite <- (app_nil_r (strategy_texts response)). apply Hhit.
Qed.

(** The two examples of the specification: an object inside prose, and an
    object with trailing commas. *)
Lemma outer_brace_slice_witness :
  (App.extract_json_from_response Json.loads prose_text
   = Ok (VDict [(lit "x", VInt 1)])
   /\ App2.extract_json_from_response Json.loads prose_text
      = Ok (VDict [(lit "x", VInt 1)]))
  /\ (App.extract_json_from_response Json.loads trailing_comma_text
      = Ok (VDict [(lit "a", VList [VInt 1; VInt 2])])
      /\ App2.extract_json_from_response Json.loads trailing_comma_text
         = Ok (VDict [(lit "a", VList [VInt 1; VInt 2])])).
Proof.
  split.
  - apply (@outer_brace_slice Json.loads prose_text
             (lit "Sure! ") (dq "'x':1") (lit " Hope that helps.")
             (VDict [(lit "x", VInt 1)])).
    + vm_compute; reflexivity.
    + vm_compute; intuition discriminate.
    + vm_compute; intuition discriminate.
    + vm_compute; reflexivity.
    + apply all_refused; vm_compute; reflexivity.
    + left; vm_compute; reflexivity.
  - apply (@outer_brace_slice Json.loads trailing_comma_text
             [] (dq "'a': [1,2,],") []
             (VDict [(lit "a", VList [VInt 1; VInt 2])])).
    + vm_compute; reflexivity.
    + vm_compute; intuition discriminate.
    + vm_compute; intuition discriminate.
    + vm_compute; reflexivity.
    + apply all_refused; vm_compute; reflexivity.
    + right; split; vm_compute; reflexivity.
Defined.

(** C7 (as amended).  In src/app.py, when the texts of strategies 1 to 4
    are all refused, the lines are accumulated from the first one that
    opens an object, the accumulated text is parsed at every line that
    closes an object, a refused text does not stop the scan, and the first
    text that parses is returned; when none parses the failure mapping is
    returned. *)
Theorem line_scan_retries (json_loads : str -> result value)
        (response : str) :
  Forall (refused json_loads) (strategy_texts response) ->
  (forall pre t post v,
      line_texts (strip response) = pre ++ t :: post ->
      Forall (refused json_loads) pre ->
      json_loads t = Ok v ->
      App.extract_json_from_response json_loads response = Ok v)
  /\ (Forall (refused json_loads) (line_texts (strip response)) ->
      App.extract_json_from_response json_loads response
      = Ok (App.failure (strip response))).
Proof.
  intros H14. rewrite app_extract_cascade, first_parse_app.
  rewrite first_parse_refused by exact H14.
  split.
  - intros pre t post v -> Hpre Hv. apply first_parse_hit; assumption.
  - intros H5. apply first_parse_refused; exact H5.
Qed.

(** An object whose fourth line closes a nested object only: the text
    accumulated up to that line is refused, the text accumulated up to the
    sixth line is the whole object. *)
Lemma line_scan_retries_witness :
  Forall (refused Json.loads) (strategy_texts nested_text)
  /\ line_texts (strip nested_text)
     = [ join [nl] [lit "{"; dq "'a': {"; lit "}"];
         join [nl] [lit "{"; dq "'a': {"; lit "}"; dq ",'b': 1"; lit "}"];
         join [nl] [lit "{"; dq "'a': {"; lit "}"; dq ",'b': 1"; lit "}";
                    lit "y }"] ]
  /\ refused Json.loads (join [nl] [lit "{"; dq "'a': {"; lit "}"])
  /\ App.extract_json_from_response Json.loads nested_text
     = Ok nested_object.
Proof.
  assert (H14 : Forall (refused Json.loads) (strategy_texts nested_text))
    by (apply all_refused; vm_compute; reflexivity).
  assert (H1 : refused Json.loads (join [nl] [lit "{"; dq "'a': {"; lit "}"]))
    by (vm_compute; reflexivity).
  split; [exact H14|].
  split; [vm_compute; reflexivity|].
  split; [exact H1|].
  apply (proj1 (@line_scan_retries Json.loads nested_text H14)
           [join [nl] [lit "{"; dq "'a': {"; lit "}"]]
           (join [nl] [lit "{"; dq "'a': {"; lit "}"; dq ",'b': 1"; lit "}"])
           [join [nl] [lit "{"; dq "'a': {"; lit "}"; dq ",'b': 1"; lit "}";
                       lit "y }"]]).
  - vm_compute; reflexivity.
  - constructor; [exact H1 | constructor].
  - vm_compute; reflexivity.
Defined.

(** C7, as stated, fails for src/app2.py: on the nested example every text
    of strategies 1 to 4 is refused, the line scan would reach a text that
    parses, and the function returns the failure mapping. *)
Lemma app2_has_no_line_scan :
  Forall (refused Json.loads) (strategy_texts nested_text)
  /\ (exists t, In t (line_texts (strip nested_text))
                /\ Json.loads t = Ok nested_object)
  /\ App2.extract_json_from_response Json.loads nested_text
     = Ok (App2.failure (strip nested_text)).
Proof.
  split; [apply all_refused; vm_compute; reflexivity|].
  split; [|vm_compute; reflexivity].
  exists (join [nl] [lit "{"; dq "'a': {"; lit "}"; dq ",'b': 1"; lit "}"]).
  split; vm_compute; [right; left; reflexivity | reflexivity].
Qed.

(** C8, as stated, fails: on a response with nothing of JSON in it the two
    files return different mappings. *)
Lemma copies_differ_on_failure :
  App.extract_json_from_response Json.loads no_json_text
  <> App2.extract_json_from_response Json.loads no_json_text.
Proof. vm_compute. intros H. discriminate H. Qed.

(** C8 (as amended).  The two copies return the same result on every
    response for which one of the texts of strategies 1 to 4 parses. *)
Theorem copies_agree_on_success (json_loads : str -> result value)
        (response : str) :
  (exists t v, In t (strategy_texts response) /\ json_loads t = Ok v) ->
  App.extract_json_from_response json_loads response
  = App2.extract_json_from_response json_loads response.
Proof.
  intros H. rewrite app_extract_cascade, app2_extract_cascade.
  rewrite first_parse_app. apply first_parse_agree. exact H.
Qed.

Lemma copies_agree_on_success_witness :
  (exists t v, In t (strategy_texts fenced_text) /\ Json.loads t = Ok v)
  /\ App.extract_json_from_response Json.loads fenced_text
     = App2.extract_json_from_response Json.loads fenced_text.
Proof.
  assert (H : exists t v, In t (strategy_texts fenced_text)
                          /\ Json.loads t = Ok v).
  { exists (dq "{'schema_type':'nosql','collections':[]}"), nosql_object.
    split; vm_compute; [right; left; reflexivity | reflexivity]. }
  split; [exact H|].
  apply (@copies_agree_on_success Json.loads fenced_text H).
Defined.

(** C2, as stated, fails: the response is an object with an [error] key of
    its own; the direct parse succeeds, and the result has the key. *)
Lemma error_key_after_success :
  exists v,
    App.extract_json_from_response Json.loads error_object_text = Ok v
    /\ App2.extract_json_from_response Json.loads error_object_text = Ok v
    /\ has_key v (lit "error") = true
    /\ Json.loads (strip error_object_text) = Ok v
    /\ ~ Forall (refused Json.loads)
         (strategy_texts error_object_text
          ++ line_texts (strip error_object_text)).
Proof.
  exists (VDict [(lit "error", VInt 1)]).
  split; [vm_compute; reflexivity|].
  split; [vm_compute; reflexivity|].
  split; [vm_compute; reflexivity|].
  split; [vm_compute; reflexivity|].
  intros H. apply Forall_app_l in H.
  inversion H as [|t l Ht _]. vm_compute in Ht. discriminate Ht.
Qed.

(** C2 (as amended).  In both files the result is either the failure
    mapping, returned exactly when every text tried was refused, or the
    value parsed from the first text tried that was not refused.  The
    failure mapping has the keys [error] and [raw_response], in this
    order, both holding strings. *)
Theorem extract_result_shape (json_loads : str -> result value)
        (response : str) :
  let cleaned := strip response in
  let texts := strategy_texts response ++ line_texts cleaned in
  let texts2 := strategy_texts response in
  (Forall (refused json_loads) texts ->
   App.extract_json_from_response json_loads response
   = Ok (App.failure cleaned))
  /\ (Forall (refused json_loads) texts2 ->
      App2.extract_json_from_response json_loads response
      = Ok (App2.failure cleaned))
  /\ (forall v,
        App.extract_json_from_response json_loads response = Ok v
        <-> Forall (refused json_loads) texts /\ v = App.failure cleaned
            \/ exists t, first_not_refused json_loads texts t
                         /\ json_loads t = Ok v)
  /\ (forall v,
        App2.extract_json_from_response json_loads response = Ok v
        <-> Forall (refused json_loads) texts2 /\ v = App2.failure cleaned
            \/ exists t, first_not_refused json_loads texts2 t
                         /\ json_loads t = Ok v)
  /\ (exists msg raw,
        App.failure cleaned
        = VDict [(lit "error", VStr msg); (lit "raw_response", VStr raw)])
  /\ (exists msg raw,
        App2.failure cleaned
        = VDict [(lit "error", VStr msg); (lit "raw_response", VStr raw)]).
Proof.
  cbv zeta. rewrite app_extract_cascade, app2_extract_cascade.
  assert (Hok : forall texts x v,
             first_parse json_loads texts (Ok x) = Ok v
             <-> Forall (refused json_loads) texts /\ v = x
                 \/ exists t, first_not_refused json_loads texts t
                              /\ json_loads t = Ok v).
  { intros texts x v. rewrite first_parse_first. split.
    - intros [[Hall H]|[t [Hf H]]].
      + left. split; [exact Hall | congruence].
      + right. exists t. split; [exact Hf | symmetry; exact H].
    - intros [[Hall ->]|[t [Hf H]]].
      + left. split; [exact Hall | reflexivity].
      + right. exists t. split; [exact Hf | symmetry; exact H]. }
  split; [apply first_parse_refused|].
  split; [apply first_parse_refused|].
  split; [intros v; apply Hok|].
  split; [intros v; apply Hok|].
  split; eexists _, _; reflexivity.
Qed.

(** The example of the specification with nothing of JSON in it. *)
Lemma extract_result_shape_witness :
  Forall (refused Json.loads)
    (strategy_texts no_json_text ++ line_texts (strip no_json_text))
  /\ App.extract_json_from_response Json.loads no_json_text
     = Ok (App.failure (strip no_json_text))
  /\ keys (App.failure (strip no_json_text))
     = [lit "error"; lit "raw_response"].
Proof.
  assert (H : Forall (refused Json.loads)
                (strategy_texts no_json_text
                 ++ line_texts (strip no_json_text)))
    by (apply all_refused; vm_compute; reflexivity).
  split; [exact H|].
  split; [|reflexivity].
  apply (proj1 (@extract_result_shape Json.loads no_json_text) H).
Defined.

(** Whenever the extracted mapping has an [error] key, [generate_schema]
    stores the first 1000 characters of the response under
    [raw_response]. *)
Lemma generate_schema_caps_raw_response (json_loads : str -> result value)
      (invoke : str -> str -> result str) (exn_str : exn -> str)
      (description schema_type response : str) (d : dict) :
  invoke description schema_type = Ok response ->
  App.extract_json_from_response json_loads response = Ok (VDict d) ->
  dict_has d (lit "error") = true ->
  exists d',
    App.generate_schema json_loads invoke exn_str description schema_type
    = Ok (VDict d')
    /\ dict_get d' (lit "raw_response") = Some (VStr (firstn 1000 response))
    /\ dict_get d' (lit "error") = dict_get d (lit "error").
Proof.
  intros Hi He Hd.
  unfold App.generate_schema, try_except, bind. rewrite Hi, He.
  cbn [contains]. rewrite Hd. cbn [set_item].
  eexists. split; [reflexivity|].
  change 1000%Z with (Z.of_nat 1000). rewrite slice_prefix.
  split; [apply dict_get_set|].
  apply dict_get_set_other. discriminate.
Qed.

(** C4, as stated, fails on the generation-error path: for a response of
    1001 characters the [raw_response] that [generate_schema] returns has
    1000 characters, not 1000 plus the length of the marker. *)
Lemma generation_error_path_has_no_marker :
  exists raw,
    App.generate_schema Json.loads (fun _ _ => Ok long_text) plain_str [] []
    = Ok (VDict [ (lit "error",
                   VStr (lit "Failed to extract valid JSON from response"));
                  (lit "raw_response", VStr raw) ])
    /\ (len long_text > 1000)%Z
    /\ len raw = 1000%Z
    /\ len raw <> (1000 + len marker)%Z.
Proof.
  exists (repeat (chr "x") 1000).
  split; [vm_compute; reflexivity|].
  split; [vm_compute; reflexivity|].
  split; [vm_compute; reflexivity|].
  vm_compute. discriminate.
Qed.

(** C4 (as amended).  On terminal failure, [extract_json_from_response] of
    src/app.py returns as [raw_response] the trimmed response itself when
    it has at most 500 characters, and otherwise its first 500 characters
    followed by the marker, 500 plus the length of the marker in all.
    [generate_schema], in both files, then replaces [raw_response] by the
    first 1000 characters of the response as received, with no marker. *)
Theorem failure_raw_response (json_loads : str -> result value)
        (invoke : str -> str -> result str) (exn_str : exn -> str)
        (description schema_type response : str) :
  Forall (refused json_loads)
    (strategy_texts response ++ line_texts (strip response)) ->
  let cleaned := strip response in
  let message := lit "Failed to extract valid JSON from response" in
  (exists raw,
      App.extract_json_from_response json_loads response
      = Ok (VDict [ (lit "error", VStr message);
                    (lit "raw_response", VStr raw) ])
      /\ ((len cleaned <= 500)%Z -> raw = cleaned)
      /\ ((len cleaned > 500)%Z ->
          raw = firstn 500 cleaned ++ marker
          /\ len raw = (500 + len marker)%Z))
  /\ (invoke description schema_type = Ok response ->
      App.generate_schema json_loads invoke exn_str description schema_type
      = Ok (VDict [ (lit "error", VStr message);
                    (lit "raw_response", VStr (firstn 1000 response)) ])
      /\ App2.generate_schema json_loads invoke exn_str
                              description schema_type
         = Ok (VDict [ (lit "error", VStr message);
                       (lit "raw_response", VStr (firstn 1000 response)) ])
      /\ len (firstn 1000 response) = Z.min 1000 (len response)).
Proof.
  intros Hall. cbv zeta.
  pose proof (app_extract_failure Hall) as E1.
  pose proof (app2_extract_failure (Forall_app_l _ _ Hall)) as E2.
  split.
  - eexists. split; [rewrite E1; unfold App.failure; reflexivity|].
    change 500%Z with (Z.of_nat 500). rewrite slice_prefix.
    split.
    + intros Hle. destruct (Z.gtb_spec (len (strip response)) (Z.of_nat 500));
        [lia | reflexivity].
    + intros Hgt. destruct (Z.gtb_spec (len (strip response)) (Z.of_nat 500));
        [|lia].
      split; [reflexivity|].
      unfold len in *. rewrite length_app, firstn_length_le by lia.
      simpl length. lia.
  - intros Hi.
    unfold App.generate_schema, App2.generate_schema, try_except, bind.
    rewrite Hi, E1, E2.
    change 1000%Z with (Z.of_nat 1000). rewrite slice_prefix.
    repeat split.
    unfold len. rewrite length_firstn. lia.
Qed.

Lemma failure_raw_response_witness :
  Forall (refused Json.loads)
    (strategy_texts no_json_text ++ line_texts (strip no_json_text))
  /\ App.generate_schema Json.loads (fun _ _ => Ok no_json_text)
                         plain_str [] []
     = Ok (VDict [ (lit "error",
                    VStr (lit "Failed to extract valid JSON from response"));
                   (lit "raw_response", VStr no_json_text) ]).
Proof.
  assert (H : Forall (refused Json.loads)
                (strategy_texts no_json_text
                 ++ line_texts (strip no_json_text)))
    by (apply all_refused; vm_compute; reflexivity).
  split; [exact H|].
  exact (proj1 (proj2 (@failure_raw_response Json.loads
                         (fun _ _ => Ok no_json_text) plain_str [] []
                         no_json_text H) eq_refl)).
Defined.

(* ================================================================== *)
(** * Properties of the diagram builders *)
(* ================================================================== *)

(** C9, as stated, fails: the hyphenated words become [ONE:TO:ONE], which
    is no known token, so they get the generic connector and not the one
    of [1:1]. *)
Lemma hyphenated_words_unrecognized :
  App2.normalize plain_repr plain_upper (VStr (lit "one-to-one"))
  = lit "ONE:TO:ONE"
  /\ App2.connector
       (App2.normalize plain_repr plain_upper (VStr (lit "one-to-one")))
     = lit "--"
  /\ App2.connector
       (App2.normalize plain_repr plain_upper (VStr (lit "1:1")))
     = lit "||--||"
  /\ App2.connector
       (App2.normalize plain_repr plain_upper (VStr (lit "one-to-one")))
     <> App2.connector
          (App2.normalize plain_repr plain_upper (VStr (lit "1:1"))).
Proof.
  split; [vm_compute; reflexivity|].
  split; [vm_compute; reflexivity|].
  split; [vm_compute; reflexivity|].
  vm_compute. discriminate.
Qed.

Lemma among_known (t : str) :
  among t known_tokens = false -> App2.connector t = lit "--".
Proof.
  unfold among, known_tokens, App2.connector. cbn [existsb].
  intros H.
  repeat (apply orb_false_elim in H; destruct H as [? H]).
  unfold among. cbn [existsb].
  repeat match goal with E : str_eqb _ _ = false |- _ =>
    rewrite E; clear E end.
  reflexivity.
Qed.

(** C9 (as amended).  The relationship type is upper-cased, its hyphens
    are turned into colons, and the result is matched against six tokens.
    [1:1], [ONE_TO_ONE], [one_to_one] and [1-1] get one connector, the
    tokens of one-to-many another, those of many-to-many a third; every
    other token, [one-to-one] and [weird] among them, gets the generic
    connector, and the diagram is built all the same. *)
Theorem relationship_connectors (float_nonzero : str -> bool)
        (repr : value -> str) (unicode_upper : N -> str)
        (exn_str : exn -> str) :
  (connector_of repr unicode_upper "1:1" = lit "||--||"
   /\ connector_of repr unicode_upper "ONE_TO_ONE" = lit "||--||"
   /\ connector_of repr unicode_upper "one_to_one" = lit "||--||"
   /\ connector_of repr unicode_upper "1-1" = lit "||--||")
  /\ (connector_of repr unicode_upper "1:N" = lit "||--o{"
      /\ connector_of repr unicode_upper "one_to_many" = lit "||--o{"
      /\ connector_of repr unicode_upper "1-n" = lit "||--o{")
  /\ (connector_of repr unicode_upper "M:N" = lit "}o--o{"
      /\ connector_of repr unicode_upper "many_to_many" = lit "}o--o{"
      /\ connector_of repr unicode_upper "m-n" = lit "}o--o{")
  /\ (connector_of repr unicode_upper "one-to-one" = lit "--"
      /\ connector_of repr unicode_upper "weird" = lit "--")
  /\ (forall type : value,
        let t := App2.normalize repr unicode_upper type in
        among t known_tokens = true \/ App2.connector t = lit "--")
  /\ App2.create_mermaid_diagram float_nonzero repr unicode_upper exn_str
       (relational [related_table])
     = Ok (join [nl] [ lit "erDiagram";
                       lit "a {";
                       lit "}";
                       dq "a ||--|| b : 'f'";
                       dq "a -- b : 'f'";
                       dq "a -- b : 'f'" ]).
Proof.
  unfold connector_of. repeat split; try reflexivity.
  intros type. cbv zeta.
  destruct (among (App2.normalize repr unicode_upper type) known_tokens)
    eqn:E; [left; reflexivity | right; apply among_known; exact E].
Qed.

(** C10, as stated, fails for [create_er_diagram]: a table without a name
    raises [KeyError]. *)
Lemma er_diagram_needs_name :
  has_key (relational [VDict []]) (lit "error") = false
  /\ App.create_er_diagram plain_nonzero plain_repr (relational [VDict []])
     = Raise (KeyError (lit "name")).
Proof. split; vm_compute; reflexivity. Qed.

Lemma dict_get_default (d : dict) (k : str) (default : value) :
  dict_get d k = None -> get (VDict d) k default = Ok default.
Proof. intros H. unfold get. rewrite H. reflexivity. Qed.

Lemma dict_get_found (d : dict) (k : str) (default v : value) :
  dict_get d k = Some v -> get (VDict d) k default = Ok v.
Proof. intros H. unfold get. rewrite H. reflexivity. Qed.

(** C10 (as amended).  [create_mermaid_diagram] returns a text for every
    schema mapping, reading missing collections as empty and missing
    names and types as their defaults.  [create_er_diagram] reads missing
    [tables], [collections], [fields] and [relationships] as empty, and
    raises [KeyError] for a table without fields that has no [name]. *)
Theorem diagrams_on_missing_keys (float_nonzero : str -> bool)
        (repr : value -> str) (unicode_upper : N -> str)
        (exn_str : exn -> str) :
  let mermaid :=
    App2.create_mermaid_diagram float_nonzero repr unicode_upper exn_str in
  let er := App.create_er_diagram float_nonzero repr in
  (forall d, exists text, mermaid (VDict d) = Ok text)
  /\ mermaid (VDict [(lit "explanation", VStr [])]) = Ok (lit "erDiagram")
  /\ mermaid (relational [bare_table])
     = Ok (join [nl] [ lit "erDiagram";
                       lit "unnamed {";
                       lit "  STRING unknown";
                       lit "}";
                       dq "unknown ||--o{ unknown : ''" ])
  /\ (forall d,
        dict_get d (lit "error") = None ->
        dict_get d (lit "tables") = None ->
        dict_get d (lit "collections") = None ->
        er (VDict d) = Ok empty_dot)
  /\ (forall name,
        er (relational [VDict [(lit "name", VStr name)]])
        = Ok (App.add empty_dot (App.Node (VStr name) (name ++ [nl]))))
  /\ (forall d table more,
        dict_get d (lit "error") = None ->
        dict_get d (lit "schema_type") = Some (VStr (lit "relational")) ->
        dict_get d (lit "tables") = Some (VList (VDict table :: more)) ->
        dict_get table (lit "fields") = None ->
        dict_get table (lit "name") = None ->
        er (VDict d) = Raise (KeyError (lit "name"))).
Proof.
  cbv zeta. split; [|split; [|split; [|split; [|split]]]].
  - intros d. unfold App2.create_mermaid_diagram.
    destruct (negb (truthy float_nonzero (VDict d))); [eexists; reflexivity|].
    unfold bind at 1. cbn [get].
    destruct (truthy float_nonzero _); [eexists; reflexivity|].
    unfold try_except.
    match goal with |- exists text, match ?b with _ => _ end = _ =>
      destruct b; eexists; reflexivity end.
  - reflexivity.
  - reflexivity.
  - intros d He Ht Hc. unfold App.create_er_diagram. cbv zeta.
    rewrite (@dict_get_default _ _ VNone He). cbn [bind truthy].
    cbn [get]. rewrite Ht, Hc. cbn [bind].
    destruct (is_str (lit "relational") _); reflexivity.
  - intros name. reflexivity.
  - intros d table more He Hs Ht Hf Hn.
    unfold App.create_er_diagram. cbv zeta.
    rewrite (@dict_get_default _ _ VNone He). cbn [bind truthy].
    rewrite (@dict_get_found _ _ VNone _ Hs). cbn [bind].
    change (is_str (lit "relational") (VStr (lit "relational"))) with true.
    cbv iota.
    rewrite (@dict_get_found _ _ (VList []) _ Ht).
    cbn [iterate App.node_loop bind].
    rewrite (@dict_get_default _ _ (VList []) Hf).
    cbn [iterate App.field_lines bind].
    unfold subscript. rewrite Hn. reflexivity.
Qed.

Lemma diagrams_on_missing_keys_witness :
  dict_get [(lit "explanation", VStr [])] (lit "error") = None
  /\ App.create_er_diagram plain_nonzero plain_repr
       (VDict [(lit "explanation", VStr [])])
     = Ok empty_dot.
Proof.
  split; [reflexivity|].
  apply (proj1 (proj2 (proj2 (proj2
           (@diagrams_on_missing_keys plain_nonzero plain_repr plain_upper
              plain_str))))); reflexivity.
Defined.

(* ================================================================== *)
(** * Further properties of the extraction and the diagrams *)
(* ================================================================== *)

(** ** Whitespace around the response *)
Lemma lstrip_blank_app (a s : str) : blank a -> lstrip (a ++ s) = lstrip s.
Proof.
  induction 1 as [|c a Hc _ IH]; [reflexivity|].
  simpl. rewrite Hc. exact IH.
Qed.

Lemma lstrip_blank (a : str) : blank a -> lstrip a = [].
Proof.
  intros H. rewrite <- (app_nil_r a). rewrite lstrip_blank_app by exact H.
  reflexivity.
Qed.

Lemma blank_rev (a : str) : blank a -> blank (rev a).
Proof. intros H. apply Forall_rev. exact H. Qed.

Lemma rstrip_app_blank (s b : str) : blank b -> rstrip (s ++ b) = rstrip s.
Proof.
  intros H. unfold rstrip. rewrite rev_app_distr.
  rewrite lstrip_blank_app by (apply blank_rev; exact H). reflexivity.
Qed.

Lemma lstrip_cases (s : str) :
  lstrip s = [] /\ blank s
  \/ exists x u, lstrip s = x :: u /\ isspace x = false.
Proof.
  induction s as [|c s IH]; [left; split; [reflexivity | constructor]|].
  simpl. destruct (isspace c) eqn:Hc.
  - destruct IH as [[E B]|H]; [left|right; exact H].
    split; [exact E | constructor; assumption].
  - right. exists c, s. split; [reflexivity | exact Hc].
Qed.

Lemma lstrip_app_solid (s b : str) (x : N) (u : str) :
  lstrip s = x :: u -> lstrip (s ++ b) = lstrip s ++ b.
Proof.
  induction s as [|c s IH]; [discriminate|].
  simpl. destruct (isspace c); [exact IH | reflexivity].
Qed.

(** Whitespace around a text does not change what [strip] returns. *)
Lemma strip_padded (a s b : str) :
  blank a -> blank b -> strip (a ++ s ++ b) = strip s.
Proof.
  intros Ha Hb. unfold strip. rewrite lstrip_blank_app by exact Ha.
  destruct (lstrip_cases s) as [[E B]|[x [u [E _]]]].
  - rewrite E. rewrite lstrip_blank; [reflexivity|].
    apply Forall_app. split; assumption.
  - rewrite (@lstrip_app_solid s b x u E). apply rstrip_app_blank. exact Hb.
Qed.

(** X1.  Whitespace before and after the response does not change what
    [extract_json_from_response] returns, in either file. *)
Theorem extract_ignores_padding (json_loads : str -> result value)
        (before response after : str) :
  blank before -> blank after ->
  App.extract_json_from_response json_loads (before ++ response ++ after)
  = App.extract_json_from_response json_loads response
  /\ App2.extract_json_from_response json_loads (before ++ response ++ after)
     = App2.extract_json_from_response json_loads response.
Proof.
  intros Ha Hb.
  unfold App.extract_json_from_response, App2.extract_json_from_response.
  cbv zeta. rewrite (@strip_padded before response after Ha Hb).
  split; reflexivity.
Qed.

Lemma extract_ignores_padding_witness :
  blank (lit "  ") /\ blank [nl]
  /\ App.extract_json_from_response Json.loads
       (lit "  " ++ relational_text ++ [nl])
     = App.extract_json_from_response Json.loads relational_text.
Proof.
  assert (Ha : blank (lit "  ")) by (repeat constructor).
  assert (Hb : blank [nl]) by (repeat constructor).
  split; [exact Ha|]. split; [exact Hb|].
  exact (proj1 (@extract_ignores_padding Json.loads (lit "  ")
                  relational_text [nl] Ha Hb)).
Defined.

(** ** Responses without braces *)
Lemma In_lstrip (c : N) (s : str) : In c (lstrip s) -> In c s.
Proof.
  induction s as [|x s IH]; [intros []|].
  simpl. destruct (isspace x); [intros H; right; apply IH; exact H | auto].
Qed.

Lemma In_strip (c : N) (s : str) : In c (strip s) -> In c s.
Proof.
  unfold strip, rstrip. intros H.
  apply In_lstrip. apply in_rev in H. apply In_lstrip in H.
  apply in_rev in H. exact H.
Qed.

Lemma In_split (sep c : N) (s line : str) :
  In line (split sep s) -> In c line -> In c s.
Proof.
  revert line; induction s as [|x s IH]; intros line Hl Hc.
  - destruct Hl as [<-|[]]. destruct Hc.
  - simpl in Hl. destruct (N.eqb x sep).
    + destruct Hl as [<-|Hl]; [destruct Hc|].
      right. apply (IH line); assumption.
    + destruct (split sep s) as [|l ls] eqn:E.
      * destruct Hl as [<-|[]]. destruct Hc as [<-|[]]. left; reflexivity.
      * destruct Hl as [<-|Hl].
        -- destruct Hc as [<-|Hc]; [left; reflexivity|].
           right. apply (IH l); [left; reflexivity | exact Hc].
        -- right. apply (IH line); [right; exact Hl | exact Hc].
Qed.

Lemma startswith_one_In (s : str) (c : N) :
  startswith s [c] = true -> In c s.
Proof.
  destruct s as [|x s]; [discriminate|].
  simpl. intros H. apply andb_true_iff in H. destruct H as [H _].
  apply N.eqb_eq in H. left. symmetry. exact H.
Qed.

Lemma opens_In (line : str) : opens line = true -> In (chr "{") line.
Proof.
  unfold opens. intros H. apply In_strip.
  apply (@startswith_one_In _ (chr "{")). exact H.
Qed.

Lemma closes_In (line : str) : closes line = true -> In (chr "}") line.
Proof.
  unfold closes, endswith. intros H. apply In_strip.
  apply in_rev. apply (@startswith_one_In _ (chr "}")). exact H.
Qed.

Lemma accumulated_incl (lines : list str) (line : str) :
  In line (accumulated lines) -> In line lines.
Proof.
  induction lines as [|l m IH]; [intros []|].
  simpl. destruct (opens l); [auto | intros H; right; apply IH; exact H].
Qed.

Lemma accumulated_none (lines : list str) :
  (forall line, In line lines -> opens line = false) ->
  accumulated lines = [].
Proof.
  induction lines as [|l m IH]; intros H; [reflexivity|].
  simpl. rewrite (H l) by (left; reflexivity).
  apply IH. intros line Hl. apply H. right; exact Hl.
Qed.

Lemma filter_none {A} (f : A -> bool) (l : list A) :
  (forall x, In x l -> f x = false) -> filter f l = [].
Proof.
  induction l as [|x l IH]; intros H; [reflexivity|].
  simpl. rewrite (H x) by (left; reflexivity).
  apply IH. intros y Hy. apply H. right; exact Hy.
Qed.

Lemma line_texts_need_braces (cleaned : str) :
  ~ In (chr "{") cleaned \/ ~ In (chr "}") cleaned ->
  line_texts cleaned = [].
Proof.
  intros [Ho|Hc]; unfold line_texts; cbv zeta.
  - rewrite accumulated_none; [reflexivity|].
    intros line Hl. destruct (opens line) eqn:E; [|reflexivity].
    exfalso. apply Ho. apply (@In_split nl _ _ line Hl). apply opens_In, E.
  - rewrite filter_none; [reflexivity|].
    intros k _.
    destruct (closes (nth (k - 1) (accumulated (split nl cleaned)) []))
      eqn:E; [|reflexivity].
    exfalso. apply Hc.
    destruct (nth_in_or_default (k - 1) (accumulated (split nl cleaned)) [])
      as [Hin|Hd].
    + apply accumulated_incl in Hin.
      apply (@In_split nl _ _ _ Hin). apply closes_In, E.
    + rewrite Hd in E. discriminate E.
Qed.

Lemma find_from_none (c : N) (s : str) (i : Z) :
  ~ In c s -> find_from c s i = (-1)%Z.
Proof.
  revert i; induction s as [|x s IH]; intros i Hn; [reflexivity|].
  simpl. destruct (N.eqb_spec x c) as [->|_].
  - exfalso; apply Hn; left; reflexivity.
  - apply IH. intros H; apply Hn; right; exact H.
Qed.

Lemma brace_texts_need_braces (cleaned : str) :
  ~ In (chr "{") cleaned \/ ~ In (chr "}") cleaned ->
  brace_texts cleaned = [].
Proof.
  intros [Ho|Hc]; unfold brace_texts, find, rfind; cbv zeta.
  - rewrite find_from_none by exact Ho. reflexivity.
  - rewrite rfind_from_none by exact Hc. rewrite orb_true_r. reflexivity.
Qed.

(** X2.  A response whose trimmed text has no opening brace, or no closing
    brace, can only be parsed directly or from a fenced region: the brace
    slice, its repair and the line scan have no text to try. *)
Theorem no_braces_two_strategies (json_loads : str -> result value)
        (response : str) :
  ~ In (chr "{") (strip response) \/ ~ In (chr "}") (strip response) ->
  App.extract_json_from_response json_loads response
  = first_parse json_loads
      (strip response :: fenced_texts (strip response))
      (Ok (App.failure (strip response)))
  /\ App2.extract_json_from_response json_loads response
     = first_parse json_loads
         (strip response :: fenced_texts (strip response))
         (Ok (App2.failure (strip response))).
Proof.
  intros H. rewrite app_extract_cascade, app2_extract_cascade.
  unfold strategy_texts. cbv zeta.
  rewrite line_texts_need_braces, brace_texts_need_braces by exact H.
  rewrite !app_nil_r. split; reflexivity.
Qed.

Lemma no_braces_two_strategies_witness :
  ~ In (chr "{") (strip no_json_text)
  /\ App.extract_json_from_response Json.loads no_json_text
     = first_parse Json.loads
         (strip no_json_text :: fenced_texts (strip no_json_text))
         (Ok (App.failure (strip no_json_text))).
Proof.
  assert (H : ~ In (chr "{") (strip no_json_text))
    by (vm_compute; intuition discriminate).
  split; [exact H|].
  exact (proj1 (@no_braces_two_strategies Json.loads no_json_text
                  (or_introl H))).
Defined.

(** ** A closing brace before the opening one *)
Lemma slice_empty (s : str) (i j : Z) :
  (0 <= j <= i)%Z -> (i <= len s)%Z -> slice s i j = [].
Proof.
  intros Hj Hi. unfold slice. rewrite !clamp_mid by lia.
  replace (Z.to_nat (j - i)) with 0 by lia. reflexivity.
Qed.

(** X3.  When the only closing braces come before the only opening ones,
    the guard of strategy 3 still passes and the slice is empty: the empty
    string is what strategies 3 and 4 parse, so [extract_json_from_response]
    of src/app2.py returns the failure mapping when the earlier texts are
    refused. *)
Theorem reversed_braces_parse_nothing (json_loads : str -> result value)
        (response a b c : str) :
  strip response = a ++ chr "}" :: b ++ chr "{" :: c ->
  ~ In (chr "{") a -> ~ In (chr "{") b -> ~ In (chr "}") b ->
  ~ In (chr "}") c ->
  brace_texts (strip response) = [[]; []]
  /\ (refused json_loads [] ->
      Forall (refused json_loads)
             (strip response :: fenced_texts (strip response)) ->
      App2.extract_json_from_response json_loads response
      = Ok (App2.failure (strip response))).
Proof.
  intros Hs Ha Hb1 Hb2 Hc.
  assert (Hbt : brace_texts (strip response) = [[]; []]).
  { rewrite Hs. unfold brace_texts, find, rfind. cbv zeta.
    assert (Hf : find_from (chr "{") (a ++ chr "}" :: b ++ chr "{" :: c) 0
                 = (0 + len (a ++ chr "}" :: b))%Z).
    { replace (a ++ chr "}" :: b ++ chr "{" :: c)
        with ((a ++ chr "}" :: b) ++ chr "{" :: c)
        by (rewrite <- app_assoc; reflexivity).
      apply find_from_app.
      intros H. apply in_app_or in H. destruct H as [H|[H|H]];
        [apply Ha; exact H | discriminate H | apply Hb1; exact H]. }
    assert (Hr : rfind_from (chr "}") (a ++ chr "}" :: b ++ chr "{" :: c)
                   0 (-1) = (0 + len a)%Z).
    { apply rfind_from_app.
      intros H. apply in_app_or in H. destruct H as [H|[H|H]];
        [apply Hb2; exact H | discriminate H | apply Hc; exact H]. }
    rewrite Hf, Hr.
    assert (Hl : len (a ++ chr "}" :: b) = (len a + len b + 1)%Z).
    { unfold len. rewrite length_app. simpl length. lia. }
    rewrite Hl.
    assert (H0 : (0 <= len a)%Z /\ (0 <= len b)%Z) by (unfold len; lia).
    destruct (Z.eqb_spec (0 + (len a + len b + 1)) (-1)); [lia|].
    destruct (Z.eqb_spec (0 + len a) (-1)); [lia|].
    simpl orb. cbv iota.
    rewrite slice_empty; [reflexivity | lia |].
    unfold len in *. rewrite length_app. simpl length.
    rewrite length_app. simpl length. lia. }
  split; [exact Hbt|].
  intros H0 H12. rewrite app2_extract_cascade.
  apply first_parse_refused. unfold strategy_texts. cbv zeta.
  rewrite Hbt. cbn [app]. rewrite app_comm_cons.
  apply Forall_app. split; [exact H12|].
  repeat constructor; exact H0.
Qed.

Lemma reversed_braces_parse_nothing_witness :
  strip (lit "} {") = [] ++ chr "}" :: lit " " ++ chr "{" :: []
  /\ brace_texts (strip (lit "} {")) = [[]; []].
Proof.
  assert (Hs : strip (lit "} {")
               = [] ++ chr "}" :: lit " " ++ chr "{" :: []) by reflexivity.
  split; [exact Hs|].
  apply (@reversed_braces_parse_nothing Json.loads (lit "} {") []
           (lit " ") [] Hs);
    vm_compute; intuition discriminate.
Defined.

(** ** What the repair removes *)
(** A text without a comma is left as it is. *)
Lemma repair_no_comma (s : str) :
  ~ In (chr ",") s -> repair_from false s = s.
Proof.
  induction s as [|c t IH]; intros Hn; [reflexivity|].
  cbn [repair_from andb].
  destruct (N.eqb_spec c (chr ",")) as [->|_].
  - exfalso. apply Hn. left; reflexivity.
  - cbn [andb]. rewrite IH; [reflexivity|].
    intros H. apply Hn. right; exact H.
Qed.

Lemma repair_keeps (b : bool) (s : str) :
  filter kept (repair_from b s) = filter kept s
  /\ length (repair_from b s) <= length s.
Proof.
  revert b; induction s as [|c t IH]; intros b; [split; reflexivity|].
  cbn [repair_from].
  destruct (b && isspace c) eqn:E1.
  - apply andb_true_iff in E1. destruct E1 as [_ Hc].
    destruct (IH true) as [H1 H2]. split.
    + cbn [filter]. unfold kept at 2. rewrite Hc, andb_false_r. exact H1.
    + simpl. lia.
  - destruct (N.eqb c (chr ",") && before_closer t) eqn:E2.
    + apply andb_true_iff in E2. destruct E2 as [Hc _].
      destruct (IH true) as [H1 H2]. split.
      * cbn [filter]. unfold kept at 2. rewrite Hc. exact H1.
      * simpl. lia.
    + destruct (IH false) as [H1 H2]. split.
      * cbn [filter]. rewrite H1. reflexivity.
      * simpl. lia.
Qed.

(** X4.  [re.sub] with the pattern of the repair only deletes commas and
    whitespace: every other character is kept, in order, nothing is added,
    and a text without a comma comes back unchanged. *)
Theorem repair_only_drops_commas_and_whitespace (s : str) :
  filter kept (sub_group1 trailing_comma_re s) = filter kept s
  /\ length (sub_group1 trailing_comma_re s) <= length s
  /\ (~ In (chr ",") s -> sub_group1 trailing_comma_re s = s).
Proof.
  rewrite sub_trailing_comma. unfold repair_commas.
  destruct (repair_keeps false s) as [H1 H2].
  split; [exact H1|]. split; [exact H2|]. apply repair_no_comma.
Qed.

Lemma repair_only_drops_commas_and_whitespace_witness :
  ~ In (chr ",") (dq "{'x':1}")
  /\ sub_group1 trailing_comma_re (dq "{'x':1}") = dq "{'x':1}".
Proof.
  assert (H : ~ In (chr ",") (dq "{'x':1}"))
    by (vm_compute; intuition discriminate).
  split; [exact H|].
  exact (proj2 (proj2 (@repair_only_drops_commas_and_whitespace
                         (dq "{'x':1}"))) H).
Defined.

(** ** The preview in the failure mapping *)
(** X5.  On terminal failure the two files return the same message; the
    preview of src/app.py has at most 503 characters, and the preview of
    src/app2.py is the first 500 characters of the trimmed response
    followed by the marker, whatever the length of the response. *)
Theorem failure_preview_bounded (json_loads : str -> result value)
        (response : str) :
  Forall (refused json_loads)
    (strategy_texts response ++ line_texts (strip response)) ->
  exists message raw raw2,
    App.extract_json_from_response json_loads response
    = Ok (VDict [(lit "error", VStr message);
                 (lit "raw_response", VStr raw)])
    /\ App2.extract_json_from_response json_loads response
       = Ok (VDict [(lit "error", VStr message);
                    (lit "raw_response", VStr raw2)])
    /\ length raw <= 503
    /\ raw2 = firstn 500 (strip response) ++ marker
    /\ length raw2 = Nat.min 500 (length (strip response)) + 3.
Proof.
  intros H.
  rewrite (app_extract_failure H).
  rewrite (app2_extract_failure (Forall_app_l _ _ H)).
  unfold App.failure, App2.failure.
  change 500%Z with (Z.of_nat 500). rewrite slice_prefix.
  eexists _, _, _. split; [reflexivity|]. split; [reflexivity|].
  split; [|split; [reflexivity|]].
  - destruct (Z.gtb_spec (len (strip response)) (Z.of_nat 500)) as [Hg|Hl].
    + rewrite length_app, length_firstn. simpl length. lia.
    + unfold len in Hl. lia.
  - rewrite length_app, length_firstn. reflexivity.
Qed.

Lemma failure_preview_bounded_witness :
  Forall (refused Json.loads)
    (strategy_texts no_json_text ++ line_texts (strip no_json_text))
  /\ exists message raw raw2,
       App.extract_json_from_response Json.loads no_json_text
       = Ok (VDict [(lit "error", VStr message);
                    (lit "raw_response", VStr raw)])
       /\ App2.extract_json_from_response Json.loads no_json_text
          = Ok (VDict [(lit "error", VStr message);
                       (lit "raw_response", VStr raw2)])
       /\ length raw <= 503
       /\ raw2 = firstn 500 (strip no_json_text) ++ marker
       /\ length raw2 = Nat.min 500 (length (strip no_json_text)) + 3.
Proof.
  assert (H : Forall (refused Json.loads)
                (strategy_texts no_json_text
                 ++ line_texts (strip no_json_text)))
    by (apply all_refused; vm_compute; reflexivity).
  split; [exact H|].
  exact (@failure_preview_bounded Json.loads no_json_text H).
Defined.

(** ** Exceptions through the extractor *)
(** X6.  An exception escapes [extract_json_from_response] only when
    [json.loads] raised it on one of the texts tried, and it is never
    [JSONDecodeError]. *)
Theorem only_foreign_exceptions_escape (json_loads : str -> result value)
        (response : str) (e : exn) :
  App.extract_json_from_response json_loads response = Raise e
  \/ App2.extract_json_from_response json_loads response = Raise e ->
  e <> JSONDecodeError
  /\ exists t, In t (strategy_texts response ++ line_texts (strip response))
               /\ json_loads t = Raise e.
Proof.
  rewrite app_extract_cascade, app2_extract_cascade.
  intros [H|H]; apply first_parse_raises in H;
    destruct H as [Hne [t [Hin Ht]]]; (split; [exact Hne|]); exists t;
    (split; [|exact Ht]).
  - exact Hin.
  - apply in_or_app. left. exact Hin.
Qed.

Lemma only_foreign_exceptions_escape_witness :
  App.extract_json_from_response always_type_error [] = Raise TypeError
  /\ TypeError <> JSONDecodeError.
Proof.
  assert (H : App.extract_json_from_response always_type_error []
              = Raise TypeError) by reflexivity.
  split; [exact H|].
  exact (proj1 (@only_foreign_exceptions_escape always_type_error []
                  TypeError (or_introl H))).
Defined.

(** ** [generate_schema] *)
(** X7.  [generate_schema] never raises, in either file: an exception of
    [chain.invoke] or of the extraction comes back as the mapping whose
    [error] is the generation-failure message and whose [raw_response] is
    the text of the exception. *)
Theorem generate_schema_never_raises (json_loads : str -> result value)
        (invoke : str -> str -> result str) (exn_str : exn -> str)
        (description schema_type : str) :
  let run := App.generate_schema json_loads invoke exn_str
                                 description schema_type in
  let run2 := App2.generate_schema json_loads invoke exn_str
                                   description schema_type in
  (exists v, run = Ok v) /\ (exists v, run2 = Ok v)
  /\ (forall e, invoke description schema_type = Raise e ->
                run = Ok (generation_failure exn_str e)
                /\ run2 = Ok (generation_failure exn_str e))
  /\ (forall response e,
        invoke description schema_type = Ok response ->
        (App.extract_json_from_response json_loads response = Raise e ->
         run = Ok (generation_failure exn_str e))
        /\ (App2.extract_json_from_response json_loads response = Raise e ->
            run2 = Ok (generation_failure exn_str e))).
Proof.
  cbv zeta. unfold App.generate_schema, App2.generate_schema, try_except.
  split; [|split; [|split]].
  - match goal with |- exists v, match ?b with _ => _ end = _ =>
      destruct b; eexists; reflexivity end.
  - match goal with |- exists v, match ?b with _ => _ end = _ =>
      destruct b; eexists; reflexivity end.
  - intros e He. rewrite He. split; reflexivity.
  - intros response e Hi. rewrite Hi. cbn [bind].
    split; intros He; rewrite He; reflexivity.
Qed.

Lemma generate_schema_never_raises_witness :
  App.generate_schema Json.loads (fun _ _ => Raise (OtherException []))
                      plain_str [] []
  = Ok (generation_failure plain_str (OtherException [])).
Proof.
  exact (proj1 (proj1 (proj2 (proj2
           (@generate_schema_never_raises Json.loads
              (fun _ _ => Raise (OtherException [])) plain_str [] [])))
           (OtherException []) eq_refl)).
Defined.

(** X8.  When the extraction returns something that is not a mapping,
    [generate_schema] of src/app.py reports a number, a boolean or [None]
    as a generation failure (the test for [error] raises [TypeError]),
    does the same for a list that holds the string [error] and for a
    string that contains it, and returns any other list or string as it
    is; a mapping without an [error] key is returned unchanged. *)
Theorem generate_schema_on_non_mappings (json_loads : str -> result value)
        (invoke : str -> str -> result str) (exn_str : exn -> str)
        (description schema_type response : str) (v : value) :
  invoke description schema_type = Ok response ->
  App.extract_json_from_response json_loads response = Ok v ->
  let run := App.generate_schema json_loads invoke exn_str
                                 description schema_type in
  (scalar v = true -> run = Ok (generation_failure exn_str TypeError))
  /\ (forall l, v = VList l ->
        run = if existsb (is_str (lit "error")) l
              then Ok (generation_failure exn_str TypeError)
              else Ok (VList l))
  /\ (forall s, v = VStr s ->
        run = if is_substring (lit "error") s
              then Ok (generation_failure exn_str TypeError)
              else Ok (VStr s))
  /\ (forall d, v = VDict d -> dict_has d (lit "error") = false ->
        run = Ok (VDict d)).
Proof.
  intros Hi He. cbv zeta.
  unfold App.generate_schema, try_except. rewrite Hi. cbn [bind].
  rewrite He. cbn [bind].
  split; [|split; [|split]].
  - destruct v; try discriminate; reflexivity.
  - intros l ->. cbn [contains bind].
    destruct (existsb (is_str (lit "error")) l); reflexivity.
  - intros s ->. cbn [contains bind].
    destruct (is_substring (lit "error") s); reflexivity.
  - intros d -> Hd. cbn [contains bind]. rewrite Hd. reflexivity.
Qed.

Lemma generate_schema_on_non_mappings_witness :
  App.extract_json_from_response Json.loads (lit "5") = Ok (VInt 5)
  /\ App.generate_schema Json.loads (fun _ _ => Ok (lit "5")) plain_str [] []
     = Ok (generation_failure plain_str TypeError).
Proof.
  assert (He : App.extract_json_from_response Json.loads (lit "5")
               = Ok (VInt 5)) by (vm_compute; reflexivity).
  split; [exact He|].
  exact (proj1 (@generate_schema_on_non_mappings Json.loads
                  (fun _ _ => Ok (lit "5")) plain_str [] [] (lit "5")
                  (VInt 5) eq_refl He) eq_refl).
Defined.

(** X9.  Whenever the extracted mapping has an [error] key, also one that
    the response itself supplied, [generate_schema] stores the first 1000
    characters of the response under [raw_response] and leaves [error] as
    it was, in both files. *)
Theorem error_mapping_gets_response_prefix
        (json_loads : str -> result value)
        (invoke : str -> str -> result str) (exn_str : exn -> str)
        (description schema_type response : str) (d : dict) :
  invoke description schema_type = Ok response ->
  dict_has d (lit "error") = true ->
  (App.extract_json_from_response json_loads response = Ok (VDict d) ->
   exists d',
     App.generate_schema json_loads invoke exn_str description schema_type
     = Ok (VDict d')
     /\ dict_get d' (lit "raw_response")
        = Some (VStr (firstn 1000 response))
     /\ dict_get d' (lit "error") = dict_get d (lit "error"))
  /\ (App2.extract_json_from_response json_loads response = Ok (VDict d) ->
      exists d',
        App2.generate_schema json_loads invoke exn_str description
                             schema_type
        = Ok (VDict d')
        /\ dict_get d' (lit "raw_response")
           = Some (VStr (firstn 1000 response))
        /\ dict_get d' (lit "error") = dict_get d (lit "error")).
Proof.
  intros Hi Hd. split; intros He.
  - apply generate_schema_caps_raw_response; assumption.
  - unfold App2.generate_schema, try_except, bind. rewrite Hi, He.
    cbn [contains]. rewrite Hd. cbn [set_item].
    eexists. split; [reflexivity|].
    change 1000%Z with (Z.of_nat 1000). rewrite slice_prefix.
    split; [apply dict_get_set|].
    apply dict_get_set_other. discriminate.
Qed.

Lemma error_mapping_gets_response_prefix_witness :
  exists d',
    App.generate_schema Json.loads (fun _ _ => Ok error_object_text)
                        plain_str [] []
    = Ok (VDict d')
    /\ dict_get d' (lit "raw_response")
       = Some (VStr (firstn 1000 error_object_text))
    /\ dict_get d' (lit "error") = Some (VInt 1).
Proof.
  apply (proj1 (@error_mapping_gets_response_prefix Json.loads
                  (fun _ _ => Ok error_object_text) plain_str [] []
                  error_object_text [(lit "error", VInt 1)]
                  eq_refl eq_refl)).
  vm_compute; reflexivity.
Defined.

(** ** [create_mermaid_diagram] *)
Section Mermaid.
Variable float_nonzero : str -> bool.
Variable repr : value -> str.
Variable unicode_upper : N -> str.
Variable exn_str : exn -> str.

(** X10.  [create_mermaid_diagram] returns the invalid-schema text for
    every schema that counts as false and for every mapping whose [error]
    counts as true, returns a text for every mapping, and raises (it is
    [AttributeError], from the call of [get] outside the [try]) exactly
    for what is neither false nor a mapping. *)
Theorem mermaid_raises_only_on_non_mappings (schema : value) :
  (truthy float_nonzero schema = false ->
   App2.create_mermaid_diagram float_nonzero repr unicode_upper exn_str
     schema
   = Ok App2.invalid_schema)
  /\ (truthy float_nonzero schema = true ->
      isinstance_dict schema = false ->
      App2.create_mermaid_diagram float_nonzero repr unicode_upper exn_str
        schema
      = Raise AttributeError)
  /\ (isinstance_dict schema = true ->
      exists text,
        App2.create_mermaid_diagram float_nonzero repr unicode_upper
          exn_str schema
        = Ok text)
  /\ (forall d e,
        schema = VDict d -> dict_get d (lit "error") = Some e ->
        truthy float_nonzero e = true ->
        App2.create_mermaid_diagram float_nonzero repr unicode_upper
          exn_str schema
        = Ok App2.invalid_schema).
Proof.
  unfold App2.create_mermaid_diagram.
  split; [|split; [|split]].
  - intros H. rewrite H. reflexivity.
  - intros H Hd. rewrite H. cbn [negb].
    destruct schema; try reflexivity. discriminate Hd.
  - intros Hd. destruct schema; try discriminate Hd.
    destruct (negb (truthy float_nonzero (VDict d))); [eexists; reflexivity|].
    unfold bind at 1. cbn [get].
    destruct (truthy float_nonzero _); [eexists; reflexivity|].
    unfold try_except.
    match goal with |- exists text, match ?b with _ => _ end = _ =>
      destruct b; eexists; reflexivity end.
  - intros d e -> He Ht.
    destruct (negb (truthy float_nonzero (VDict d))); [reflexivity|].
    cbn [get bind]. rewrite He, Ht. reflexivity.
Qed.

Lemma startswith_self_app (a b : str) : startswith (a ++ b) a = true.
Proof.
  induction a as [|x a IH]; [destruct b; reflexivity|].
  simpl. rewrite N.eqb_refl. exact IH.
Qed.

Lemma join_head (sep a : str) (l : list str) :
  startswith (join sep (a :: l)) a = true.
Proof.
  destruct l as [|b l].
  - simpl. rewrite <- (app_nil_r a) at 1. apply startswith_self_app.
  - change (join sep (a :: b :: l)) with (a ++ sep ++ join sep (b :: l)).
    apply startswith_self_app.
Qed.

Lemma entity_loop_extends (items : list value) (diagram out : list str) :
  App2.entity_loop repr unicode_upper items diagram = Ok out ->
  exists extra, out = diagram ++ extra.
Proof.
  revert diagram; induction items as [|it m IH]; intros diagram H.
  - exists []. rewrite app_nil_r. simpl in H. congruence.
  - cbn [App2.entity_loop] in H.
    destruct (negb (isinstance_dict it)); [apply IH; exact H|].
    destruct (get it (lit "name") (VStr (lit "unnamed"))) as [nm|];
      [|discriminate H].
    cbn [bind] in H.
    destruct (get it (lit "fields") (VList [])) as [fo|]; [|discriminate H].
    cbn [bind] in H.
    destruct (iterate fo) as [fl|]; [|discriminate H].
    cbn [bind] in H.
    destruct (App2.field_loop repr unicode_upper fl _) as [el|];
      [|discriminate H].
    cbn [bind] in H. apply IH in H. destruct H as [extra ->].
    rewrite <- app_assoc. eexists. reflexivity.
Qed.

Lemma rel_loop_extends (it : value) (rels : list value)
      (diagram out : list str) :
  App2.rel_loop repr unicode_upper it rels diagram = Ok out ->
  exists extra, out = diagram ++ extra.
Proof.
  revert diagram; induction rels as [|r m IH]; intros diagram H.
  - exists []. rewrite app_nil_r. simpl in H. congruence.
  - cbn [App2.rel_loop] in H.
    destruct (negb (isinstance_dict r)); [apply IH; exact H|].
    destruct (get it (lit "name") (VStr (lit "unknown"))) as [a|];
      [|discriminate H].
    cbn [bind] in H.
    destruct (get r (lit "related_to") (VStr (lit "unknown"))) as [b|];
      [|discriminate H].
    cbn [bind] in H.
    destruct (get r (lit "type") (VStr (lit "1:N"))) as [c|]; [|discriminate H].
    cbn [bind] in H.
    destruct (get r (lit "field") (VStr [])) as [d|]; [|discriminate H].
    cbn [bind] in H. apply IH in H. destruct H as [extra ->].
    rewrite <- app_assoc. eexists. reflexivity.
Qed.

Lemma relationship_loop_extends (items : list value)
      (diagram out : list str) :
  App2.relationship_loop repr unicode_upper items diagram = Ok out ->
  exists extra, out = diagram ++ extra.
Proof.
  revert diagram; induction items as [|it m IH]; intros diagram H.
  - exists []. rewrite app_nil_r. simpl in H. congruence.
  - cbn [App2.relationship_loop] in H.
    destruct (negb (isinstance_dict it)); [apply IH; exact H|].
    destruct (get it (lit "relationships") (VList [])) as [ro|];
      [|discriminate H].
    cbn [bind] in H.
    destruct (iterate ro) as [rl|]; [|discriminate H].
    cbn [bind] in H.
    destruct (App2.rel_loop repr unicode_upper it rl diagram) as [d'|] eqn:E;
      [|discriminate H].
    cbn [bind] in H. apply rel_loop_extends in E. destruct E as [e1 ->].
    apply IH in H. destruct H as [e2 ->].
    rewrite <- app_assoc. eexists. reflexivity.
Qed.

(** X11.  Every text that [create_mermaid_diagram] returns starts with
    [erDiagram]: the diagram, the invalid-schema text and the text for a
    failed generation alike. *)
Theorem mermaid_text_starts_with_header (schema : value) (text : str) :
  App2.create_mermaid_diagram float_nonzero repr unicode_upper exn_str
    schema
  = Ok text ->
  startswith text (lit "erDiagram") = true.
Proof.
  unfold App2.create_mermaid_diagram.
  destruct (negb (truthy float_nonzero schema)).
  { intros H. injection H as <-. apply join_head. }
  destruct (get schema (lit "error") VNone) as [e|]; [|discriminate].
  cbn [bind]. destruct (truthy float_nonzero e).
  { intros H. injection H as <-. apply join_head. }
  unfold try_except.
  match goal with |- match ?b with _ => _ end = _ -> _ =>
    destruct b as [t|ex] eqn:E end.
  2:{ intros H. injection H as <-. apply join_head. }
  intros H. injection H as <-.
  destruct (get schema (lit "schema_type") VNone) as [st|]; [|discriminate E].
  cbn [bind] in E.
  match type of E with (bind ?sel _ = _) => destruct sel as [io|] end;
    [|discriminate E].
  cbn [bind] in E.
  destruct (iterate io) as [items|]; [|discriminate E]. cbn [bind] in E.
  destruct (App2.entity_loop repr unicode_upper items [lit "erDiagram"])
    as [d1|] eqn:E1; [|discriminate E].
  cbn [bind] in E.
  destruct (App2.relationship_loop repr unicode_upper items d1)
    as [d2|] eqn:E2; [|discriminate E].
  cbn [bind] in E. injection E as <-.
  apply entity_loop_extends in E1. destruct E1 as [x1 ->].
  apply relationship_loop_extends in E2. destruct E2 as [x2 ->].
  cbn [app]. apply join_head.
Qed.
End Mermaid.

Lemma mermaid_raises_only_on_non_mappings_witness :
  truthy plain_nonzero (VList [VNone]) = true
  /\ App2.create_mermaid_diagram plain_nonzero plain_repr plain_upper
       plain_str (VList [VNone])
     = Raise AttributeError.
Proof.
  split; [reflexivity|].
  exact (proj1 (proj2 (@mermaid_raises_only_on_non_mappings plain_nonzero
                         plain_repr plain_upper plain_str (VList [VNone])))
           eq_refl eq_refl).
Defined.

Lemma mermaid_text_starts_with_header_witness :
  exists text,
    App2.create_mermaid_diagram plain_nonzero plain_repr plain_upper
      plain_str (relational [bare_table])
    = Ok text
    /\ startswith text (lit "erDiagram") = true.
Proof.
  eexists. split; [vm_compute; reflexivity|].
  apply (@mermaid_text_starts_with_header plain_nonzero plain_repr
           plain_upper plain_str (relational [bare_table])).
  vm_compute; reflexivity.
Defined.

Section MermaidSkip.
Variable float_nonzero : str -> bool.
Variable repr : value -> str.
Variable unicode_upper : N -> str.
Variable exn_str : exn -> str.

Lemma entity_loop_skips (items : list value) (diagram : list str) :
  App2.entity_loop repr unicode_upper (filter isinstance_dict items) diagram
  = App2.entity_loop repr unicode_upper items diagram.
Proof.
  revert diagram; induction items as [|it m IH]; intros diagram;
    [reflexivity|].
  cbn [filter]. destruct (isinstance_dict it) eqn:E.
  - cbn [App2.entity_loop]. rewrite E. cbn [negb].
    destruct (get it (lit "name") (VStr (lit "unnamed"))) as [name|];
      [|reflexivity].
    cbn [bind].
    destruct (get it (lit "fields") (VList [])) as [fields_obj|];
      [|reflexivity].
    cbn [bind]. destruct (iterate fields_obj) as [fields|]; [|reflexivity].
    cbn [bind].
    destruct (App2.field_loop repr unicode_upper fields _) as [lines|];
      [|reflexivity].
    cbn [bind]. apply IH.
  - cbn [App2.entity_loop]. rewrite E. cbn [negb]. apply IH.
Qed.

Lemma relationship_loop_skips (items : list value) (diagram : list str) :
  App2.relationship_loop repr unicode_upper (filter isinstance_dict items)
                         diagram
  = App2.relationship_loop repr unicode_upper items diagram.
Proof.
  revert diagram; induction items as [|it m IH]; intros diagram;
    [reflexivity|].
  cbn [filter]. destruct (isinstance_dict it) eqn:E.
  - cbn [App2.relationship_loop]. rewrite E. cbn [negb].
    destruct (get it (lit "relationships") (VList [])) as [rels_obj|];
      [|reflexivity].
    cbn [bind]. destruct (iterate rels_obj) as [rels|]; [|reflexivity].
    cbn [bind].
    destruct (App2.rel_loop repr unicode_upper it rels diagram) as [out|];
      [|reflexivity].
    cbn [bind]. apply IH.
  - cbn [App2.relationship_loop]. rewrite E. cbn [negb]. apply IH.
Qed.

(** X12.  Entries of [tables] that are not mappings are skipped by
    [create_mermaid_diagram]: the diagram is the one of the schema without
    them. *)
Theorem mermaid_ignores_non_mappings (items : list value) :
  App2.create_mermaid_diagram float_nonzero repr unicode_upper exn_str
    (relational (filter isinstance_dict items))
  = App2.create_mermaid_diagram float_nonzero repr unicode_upper exn_str
      (relational items).
Proof.
  unfold App2.create_mermaid_diagram, relational.
  cbn [truthy negb get dict_get bind].
  change (str_eqb (lit "schema_type") (lit "error")) with false.
  change (str_eqb (lit "tables") (lit "error")) with false.
  cbn [truthy].
  change (str_eqb (lit "schema_type") (lit "schema_type")) with true.
  cbn [bind].
  change (is_str (lit "relational") (VStr (lit "relational"))) with true.
  change (str_eqb (lit "schema_type") (lit "tables")) with false.
  change (str_eqb (lit "tables") (lit "tables")) with true.
  cbn [bind iterate].
  rewrite entity_loop_skips.
  destruct (App2.entity_loop repr unicode_upper items [lit "erDiagram"]);
    [|reflexivity].
  cbn [bind]. rewrite relationship_loop_skips. reflexivity.
Qed.
End MermaidSkip.

(** ** [create_er_diagram] *)
Section Er.
Variable float_nonzero : str -> bool.
Variable repr : value -> str.

Lemma node_loop_nodes (items : list value) (dot dot' : App.digraph) :
  App.node_loop repr items dot = Ok dot' ->
  App.comment dot' = App.comment dot
  /\ exists nodes, App.body dot' = App.body dot ++ nodes
                   /\ Forall2 node_of items nodes.
Proof.
  revert dot; induction items as [|it m IH]; intros dot H.
  - simpl in H. injection H as <-. split; [reflexivity|].
    exists []. rewrite app_nil_r. split; [reflexivity | constructor].
  - cbn [App.node_loop] in H.
    destruct (get it (lit "fields") (VList [])) as [fo|]; [|discriminate H].
    cbn [bind] in H.
    destruct (iterate fo) as [fl|]; [|discriminate H]. cbn [bind] in H.
    destruct (App.field_lines repr fl) as [parts|]; [|discriminate H].
    cbn [bind] in H.
    destruct (subscript it (lit "name")) as [name|] eqn:En; [|discriminate H].
    cbn [bind] in H.
    apply IH in H. destruct H as [Hc [nodes [Hb Hn]]].
    split; [exact Hc|].
    cbn [App.add App.body] in Hb. rewrite <- app_assoc in Hb.
    eexists. split; [exact Hb|].
    constructor; [|exact Hn].
    eexists _, _. split; [exact En | reflexivity].
Qed.

Lemma rel_loop_edges (it : value) (rels : list value)
      (dot dot' : App.digraph) :
  App.rel_loop repr it rels dot = Ok dot' ->
  App.comment dot' = App.comment dot
  /\ exists edges, App.body dot' = App.body dot ++ edges
                   /\ forallb is_edge edges = true
                   /\ length edges = length rels.
Proof.
  revert dot; induction rels as [|r m IH]; intros dot H.
  - simpl in H. injection H as <-. split; [reflexivity|].
    exists []. rewrite app_nil_r. repeat split.
  - cbn [App.rel_loop] in H.
    destruct (subscript it (lit "name")) as [a|]; [|discriminate H].
    cbn [bind] in H.
    destruct (subscript r (lit "related_to")) as [b|]; [|discriminate H].
    cbn [bind] in H.
    destruct (subscript r (lit "type")) as [c|]; [|discriminate H].
    cbn [bind] in H.
    destruct (subscript r (lit "field")) as [d|]; [|discriminate H].
    cbn [bind] in H.
    apply IH in H. destruct H as [Hc [edges [Hb [He Hl]]]].
    split; [exact Hc|].
    cbn [App.add App.body] in Hb. rewrite <- app_assoc in Hb.
    eexists. split; [exact Hb|]. split.
    + cbn [app forallb is_edge andb]. exact He.
    + simpl. rewrite Hl. reflexivity.
Qed.

Lemma edge_loop_edges (items : list value) (dot dot' : App.digraph) :
  App.edge_loop repr items dot = Ok dot' ->
  App.comment dot' = App.comment dot
  /\ exists edges, App.body dot' = App.body dot ++ edges
                   /\ forallb is_edge edges = true.
Proof.
  revert dot; induction items as [|it m IH]; intros dot H.
  - simpl in H. injection H as <-. split; [reflexivity|].
    exists []. rewrite app_nil_r. repeat split.
  - cbn [App.edge_loop] in H.
    destruct (get it (lit "relationships") (VList [])) as [ro|];
      [|discriminate H].
    cbn [bind] in H.
    destruct (iterate ro) as [rl|]; [|discriminate H]. cbn [bind] in H.
    destruct (App.rel_loop repr it rl dot) as [d1|] eqn:E; [|discriminate H].
    cbn [bind] in H.
    apply rel_loop_edges in E. destruct E as [Hc1 [e1 [Hb1 [He1 _]]]].
    apply IH in H. destruct H as [Hc2 [e2 [Hb2 He2]]].
    split; [congruence|].
    exists (e1 ++ e2). split.
    + rewrite Hb2, Hb1, app_assoc. reflexivity.
    + rewrite forallb_app, He1, He2. reflexivity.
Qed.

(** X13.  A diagram that [create_er_diagram] returns is the empty one or
    holds, after the [rankdir] attribute, one node per item of [tables]
    (or [collections]), in order and under the item's [name], and only
    then the edges. *)
Theorem er_diagram_nodes_then_edges (schema : value) (dot : App.digraph) :
  App.create_er_diagram float_nonzero repr schema = Ok dot ->
  App.comment dot = lit "ER Diagram"
  /\ (dot = empty_dot
      \/ exists items_obj items nodes edges,
           (get schema (lit "tables") (VList []) = Ok items_obj
            \/ get schema (lit "collections") (VList []) = Ok items_obj)
           /\ iterate items_obj = Ok items
           /\ App.body dot
              = App.Attr (lit "rankdir") (lit "LR") :: nodes ++ edges
           /\ Forall2 node_of items nodes
           /\ forallb is_edge edges = true).
Proof.
  unfold App.create_er_diagram. cbv zeta.
  destruct (get schema (lit "error") VNone) as [e|]; [|discriminate].
  cbn [bind]. destruct (truthy float_nonzero e).
  { intros H. injection H as <-. split; [reflexivity | left; reflexivity]. }
  destruct (get schema (lit "schema_type") VNone) as [st|]; [|discriminate].
  cbn [bind].
  match goal with |- bind ?sel _ = _ -> _ =>
    destruct sel as [io|] eqn:Eio end; [|discriminate].
  assert (Hio : get schema (lit "tables") (VList []) = Ok io
                \/ get schema (lit "collections") (VList []) = Ok io)
    by (destruct (is_str (lit "relational") st); auto).
  clear Eio. cbn [bind].
  destruct (iterate io) as [items|] eqn:Ei; [|discriminate]. cbn [bind].
  match goal with |- bind ?nl _ = _ -> _ => destruct nl as [d1|] eqn:E1 end;
    [|discriminate].
  cbn [bind].
  destruct (App.edge_loop repr items d1) as [d2|] eqn:E2; [|discriminate].
  cbn [bind]. intros H. injection H as <-.
  apply node_loop_nodes in E1. destruct E1 as [Hc1 [nodes [Hb1 Hn]]].
  apply edge_loop_edges in E2. destruct E2 as [Hc2 [edges [Hb2 He]]].
  split; [rewrite Hc2, Hc1; reflexivity|].
  right. exists io, items, nodes, edges.
  split; [exact Hio|]. split; [exact Ei|]. split; [|split; assumption].
  rewrite Hb2, Hb1. reflexivity.
Qed.
End Er.

Lemma er_diagram_nodes_then_edges_witness :
  exists dot,
    App.create_er_diagram plain_nonzero plain_repr
      (relational [VDict [(lit "name", VStr (lit "a"))]])
    = Ok dot
    /\ App.comment dot = lit "ER Diagram".
Proof.
  eexists. split; [vm_compute; reflexivity|].
  apply (@er_diagram_nodes_then_edges plain_nonzero plain_repr
           (relational [VDict [(lit "name", VStr (lit "a"))]])).
  vm_compute; reflexivity.
Defined.

(** ** The body of a fenced region *)
Lemma startswith_prefix (x y k : str) :
  startswith x k = true -> startswith (x ++ y) k = true.
Proof.
  revert x; induction k as [|c k IH]; intros x H;
    [destruct (x ++ y); reflexivity|].
  destruct x as [|a x]; [discriminate H|].
  simpl in *. apply andb_true_iff in H. destruct H as [H1 H2].
  rewrite H1. apply IH. exact H2.
Qed.

Lemma skipn_startswith (s k : str) :
  startswith s k = true -> s = k ++ skipn (length k) s.
Proof.
  revert s; induction k as [|c k IH]; intros s H; [reflexivity|].
  destruct s as [|a s]; [discriminate H|].
  simpl in H. apply andb_true_iff in H. destruct H as [H1 H2].
  apply N.eqb_eq in H1. subst a. simpl. f_equal. apply IH. exact H2.
Qed.

Lemma find_close_cut (s body rest : str) :
  find_close s = Some (body, rest) ->
  s = body ++ (nl :: fence) ++ rest
  /\ is_substring (nl :: fence) body = false.
Proof.
  revert body rest; induction s as [|c t IH]; intros body rest.
  - cbn. discriminate.
  - cbn [find_close].
    destruct (startswith (c :: t) (nl :: fence)) eqn:E.
    + intros H. injection H as <- <-. split; [|reflexivity].
      apply (skipn_startswith (c :: t) (nl :: fence) E).
    + destruct (find_close t) as [[b r]|] eqn:Ef; [|discriminate].
      intros H. injection H as <- <-.
      destruct (IH _ _ eq_refl) as [Ht Hn]. split.
      * rewrite Ht at 1. reflexivity.
      * cbn [is_substring]. rewrite Hn, orb_false_r.
        destruct (startswith (c :: b) (nl :: fence)) eqn:Eb; [|reflexivity].
        rewrite Ht in E.
        change (c :: b ++ (nl :: fence) ++ r)
          with ((c :: b) ++ (nl :: fence) ++ r) in E.
        rewrite startswith_prefix in E by exact Eb.
        discriminate E.
Qed.

Lemma regions_from_cut (n : nat) (s body : str) :
  In body (regions_from n s) -> is_substring (nl :: fence) body = false.
Proof.
  revert s; induction n as [|n IH]; intros s; [intros []|].
  destruct s as [|c t]; [intros []|].
  cbn [regions_from].
  destruct (region_here (c :: t)) as [[b r]|] eqn:E; [|apply IH].
  intros [<-|H]; [|apply (IH r); exact H].
  unfold region_here in E.
  destruct (open_fence (c :: t)) as [inside|]; [|discriminate E].
  apply find_close_cut in E. tauto.
Qed.

(** X14.  No body that the fenced-block scan hands to [json.loads]
    contains a line feed followed by three backticks: a region ends at the
    first closing fence. *)
Theorem fenced_body_has_no_closing_fence (s body : str) :
  In body (findall code_block_re s) ->
  is_substring (nl :: lit "```") body = false.
Proof.
  rewrite findall_fenced_regions. apply regions_from_cut.
Qed.

Lemma fenced_body_has_no_closing_fence_witness :
  In (dq "{'schema_type':'nosql','collections':[]}")
     (findall code_block_re fenced_text)
  /\ is_substring (nl :: lit "```")
       (dq "{'schema_type':'nosql','collections':[]}") = false.
Proof.
  assert (H : In (dq "{'schema_type':'nosql','collections':[]}")
                 (findall code_block_re fenced_text))
    by (vm_compute; left; reflexivity).
  split; [exact H|].
  exact (@fenced_body_has_no_closing_fence fenced_text _ H).
Defined.

(* ================================================================== *)
(** * Properties of the server start and the deployment *)
(* ================================================================== *)

Import Ollama.

Lemma poll_spec (get : nat -> probe) (calls i n : nat) :
  match first_ok get calls n with
  | Some k =>
      exists events,
        poll get calls i n = (true, events ++ [Ready (i + k + 1)])
        /\ events = repeat Slept
             (length (filter unreachable (map get (seq calls k))))
  | None =>
      poll get calls i n
      = (false, repeat Slept
                  (length (filter unreachable (map get (seq calls n)))))
  end.
Proof.
  revert calls i; induction n as [|n IH]; intros calls i; [reflexivity|].
  cbn [first_ok poll]. specialize (IH (S calls) (S i)).
  destruct (get calls) as [code|] eqn:Eg; cbn [answers_ok].
  - destruct (code =? 200)%Z.
    + exists []. split; [|reflexivity].
      cbn [app]. rewrite Nat.add_0_r. reflexivity.
    + destruct (first_ok get (S calls) n) as [k|].
      * destruct IH as [events [Hp He]]. exists events.
        rewrite Hp. split.
        -- replace (i + S k + 1) with (S i + k + 1) by lia. reflexivity.
        -- cbn [seq map filter]. rewrite Eg. cbn [unreachable]. exact He.
      * rewrite IH. cbn [seq map filter]. rewrite Eg. reflexivity.
  - destruct (first_ok get (S calls) n) as [k|].
    + destruct IH as [events [Hp He]]. exists (Slept :: events).
      rewrite Hp. split.
      * replace (i + S k + 1) with (S i + k + 1) by lia. reflexivity.
      * cbn [seq map filter]. rewrite Eg. cbn [unreachable length repeat].
        rewrite He. reflexivity.
    + rewrite IH. cbn [seq map filter]. rewrite Eg. reflexivity.
Qed.

Lemma first_ok_bound (get : nat -> probe) (calls n k : nat) :
  first_ok get calls n = Some k ->
  k < n /\ answers_ok (get (calls + k)) = true
  /\ forall j, j < k -> answers_ok (get (calls + j)) = false.
Proof.
  revert calls k; induction n as [|n IH]; intros calls k; [discriminate|].
  cbn [first_ok]. destruct (answers_ok (get calls)) eqn:E.
  - intros H. injection H as <-. rewrite Nat.add_0_r.
    repeat split; [lia | exact E | intros j Hj; lia].
  - destruct (first_ok get (S calls) n) as [k'|] eqn:Ef; [|discriminate].
    intros H. injection H as <-.
    destruct (IH _ _ Ef) as [H1 [H2 H3]].
    repeat split; [lia | |].
    + replace (calls + S k') with (S calls + k') by lia. exact H2.
    + intros [|j] Hj; [rewrite Nat.add_0_r; exact E|].
      replace (calls + S j) with (S calls + j) by lia. apply H3. lia.
Qed.

Lemma first_ok_none (get : nat -> probe) (calls n : nat) :
  first_ok get calls n = None ->
  forall j, j < n -> answers_ok (get (calls + j)) = false.
Proof.
  revert calls; induction n as [|n IH]; intros calls H j Hj; [lia|].
  cbn [first_ok] in H. destruct (answers_ok (get calls)) eqn:E;
    [discriminate|].
  destruct (first_ok get (S calls) n) as [k'|] eqn:Ef; [discriminate|].
  destruct j as [|j]; [rewrite Nat.add_0_r; exact E|].
  replace (calls + S j) with (S calls + j) by lia. apply (IH _ Ef). lia.
Qed.

(** The loop ends with [True] exactly when one of the calls left is
    answered with status 200, whatever the iteration it is entered at. *)
Lemma poll_answered (get : nat -> probe) (calls i timeout : nat) :
  fst (poll get calls i timeout) = true
  <-> exists k, k < timeout /\ get (calls + k) = Status 200.
Proof.
  pose proof (poll_spec get calls i timeout) as H.
  destruct (first_ok get calls timeout) as [k|] eqn:E.
  - destruct H as [events [Hp _]]. rewrite Hp. cbn [fst].
    split; [intros _|reflexivity].
    destruct (@first_ok_bound get calls timeout k E) as [Hk [Ha _]].
    exists k. split; [exact Hk|].
    destruct (get (calls + k)) as [code|]; [|discriminate Ha].
    cbn [answers_ok] in Ha. apply Z.eqb_eq in Ha. subst code. reflexivity.
  - rewrite H. cbn [fst]. split; [discriminate|].
    intros [k [Hk Hg]].
    pose proof (@first_ok_none get calls timeout E k Hk) as Hn.
    rewrite Hg in Hn. discriminate Hn.
Qed.

(** X15.  [check_server_ready] returns [True] exactly when one of its
    [timeout] calls of [requests.get] is answered with status 200. *)
Theorem server_ready_iff_answered (get : nat -> probe) (calls timeout : nat) :
  fst (check_server_ready get calls timeout) = true
  <-> exists k, k < timeout /\ get (calls + k) = Status 200.
Proof.
  unfold check_server_ready. apply poll_answered.
Qed.

Lemma server_ready_iff_answered_witness :
  (exists k, k < 15 /\ third_call (0 + k) = Status 200)
  /\ fst (check_server_ready third_call 0 15) = true.
Proof.
  assert (H : exists k, k < 15 /\ third_call (0 + k) = Status 200)
    by (exists 2; split; [lia | reflexivity]).
  split; [exact H|].
  exact (proj2 (@server_ready_iff_answered third_call 0 15) H).
Defined.

Lemma sleeps_repeat (n : nat) : sleeps (repeat Slept n) = n.
Proof.
  induction n as [|n IH]; [reflexivity|].
  unfold sleeps in *. simpl. rewrite IH. reflexivity.
Qed.

Lemma count_le {A} (f : A -> bool) (l : list A) :
  length (filter f l) <= length l.
Proof. induction l as [|x l IH]; simpl; [lia|]. destruct (f x); simpl; lia. Qed.

Lemma raised_le (get : nat -> probe) (calls n : nat) :
  raised get calls n <= n.
Proof.
  unfold raised. etransitivity; [apply count_le|].
  rewrite length_map, length_seq. lia.
Qed.

Lemma sleeps_trace (n : nat) (tail : list event) :
  sleeps (repeat Slept n ++ tail) = n + sleeps tail.
Proof.
  unfold sleeps. rewrite filter_app, length_app.
  fold (sleeps (repeat Slept n)). rewrite sleeps_repeat. reflexivity.
Qed.

Lemma answers_ok_status (p : probe) :
  answers_ok p = true <-> p = Status 200.
Proof.
  destruct p as [code|]; cbn [answers_ok].
  - rewrite Z.eqb_eq. split; [intros ->; reflexivity | congruence].
  - split; discriminate.
Qed.

(** X16.  [check_server_ready] makes its calls of [requests.get] one
    after the other up to the first that is answered with status 200, or
    all [timeout] of them when none is.  It sleeps once for every call
    made that raised [RequestException] and at no other time, so at most
    [timeout] times; the success message is its last act and reports the
    number of calls made. *)
Theorem server_ready_pauses (get : nat -> probe) (calls timeout : nat)
        (ready : bool) (events : list event) :
  check_server_ready get calls timeout = (ready, events) ->
  (ready = true ->
   exists k,
     k < timeout
     /\ get (calls + k) = Status 200
     /\ (forall j, j < k -> get (calls + j) <> Status 200)
     /\ events = repeat Slept (raised get calls k) ++ [Ready (k + 1)]
     /\ sleeps events = raised get calls k)
  /\ (ready = false ->
      (forall j, j < timeout -> get (calls + j) <> Status 200)
      /\ events = repeat Slept (raised get calls timeout)
      /\ sleeps events = raised get calls timeout)
  /\ sleeps events <= timeout
  /\ ((forall j, j < timeout -> unreachable (get (calls + j)) = false) ->
      sleeps events = 0).
Proof.
  unfold check_server_ready.
  pose proof (poll_spec get calls 0 timeout) as H.
  assert (Hquiet : forall n,
             n <= timeout ->
             (forall j, j < timeout -> unreachable (get (calls + j)) = false)
             -> raised get calls n = 0).
  { intros n Hn Hu. unfold raised. rewrite filter_none; [reflexivity|].
    intros p Hp. apply in_map_iff in Hp. destruct Hp as [j [<- Hj]].
    apply in_seq in Hj. replace j with (calls + (j - calls)) by lia.
    apply Hu. lia. }
  destruct (first_ok get calls timeout) as [k|] eqn:E.
  - destruct H as [ev [Hp He]]. rewrite Hp. intros Heq.
    injection Heq as <- <-. fold (raised get calls k) in He. subst ev.
    destruct (@first_ok_bound get calls timeout k E) as [Hk [Ha Hb]].
    change (0 + k + 1) with (k + 1).
    assert (Hs : sleeps (repeat Slept (raised get calls k)
                         ++ [Ready (k + 1)])
                 = raised get calls k).
    { rewrite sleeps_trace. cbn. lia. }
    rewrite Hs. pose proof (raised_le get calls k) as Hle.
    split; [|split; [discriminate | split]].
    + intros _. exists k. split; [exact Hk|].
      split; [apply answers_ok_status; exact Ha|].
      split; [|split; reflexivity].
      intros j Hj Hg. apply answers_ok_status in Hg.
      rewrite (Hb j Hj) in Hg. discriminate Hg.
    + lia.
    + intros Hu. apply Hquiet; [lia | exact Hu].
  - rewrite H. fold (raised get calls timeout). intros Heq.
    injection Heq as <- <-. rewrite sleeps_repeat.
    split; [discriminate | split; [|split]].
    + intros _. split; [|split; reflexivity].
      intros j Hj Hg. apply answers_ok_status in Hg.
      rewrite (@first_ok_none get calls timeout E j Hj) in Hg.
      discriminate Hg.
    + apply raised_le.
    + intros Hu. apply Hquiet; [lia | exact Hu].
Qed.

Lemma server_ready_pauses_witness :
  check_server_ready third_call 0 15 = (true, [Slept; Slept; Ready 3])
  /\ exists k,
       k < 15
       /\ third_call (0 + k) = Status 200
       /\ [Slept; Slept; Ready 3]
          = repeat Slept (raised third_call 0 k) ++ [Ready (k + 1)].
Proof.
  assert (H : check_server_ready third_call 0 15
              = (true, [Slept; Slept; Ready 3])) by reflexivity.
  split; [exact H|].
  destruct (proj1 (@server_ready_pauses third_call 0 15 true
                     [Slept; Slept; Ready 3] H) eq_refl)
    as [k [Hk [Hg [_ [He _]]]]].
  exists k. split; [exact Hk|]. split; [exact Hg | exact He].
Defined.

(** X17.  [ensure_ollama_running] returns [True] exactly when the first
    call is answered with status 200, or the server could be launched and
    one of the fifteen calls that follow is; it does not launch a server
    that answered. *)
Theorem ensure_running_outcomes (get : nat -> probe) (popen_ok : bool) :
  let run := ensure_ollama_running get popen_ok in
  (fst run = true
   <-> get 0 = Status 200
       \/ popen_ok = true /\ exists k, k < 15 /\ get (1 + k) = Status 200)
  /\ (get 0 = Status 200 -> run = (true, [AlreadyRunning]))
  /\ (In Launched (snd run) \/ In LaunchFailed (snd run)
      -> get 0 <> Status 200).
Proof.
  cbv zeta. unfold ensure_ollama_running, start_ollama_server.
  assert (Hok : answers_ok (get 0) = true <-> get 0 = Status 200).
  { destruct (get 0) as [code|]; cbn [answers_ok].
    - rewrite Z.eqb_eq. split; [intros ->; reflexivity | intros H; congruence].
    - split; discriminate. }
  destruct (answers_ok (get 0)) eqn:E.
  - cbn [fst snd]. split; [|split].
    + split; [intros _; left; apply Hok; reflexivity | reflexivity].
    + reflexivity.
    + intros [[H|[]]|[H|[]]]; discriminate H.
  - assert (Hn : get 0 <> Status 200).
    { intros H. apply Hok in H. discriminate H. }
    destruct popen_ok; cbn [negb].
    + pose proof (poll_answered get 1 0 15) as Hr.
      fold (check_server_ready get 1 15) in Hr.
      destruct (check_server_ready get 1 15) as [ready events].
      cbn [fst snd] in *. split; [|split].
      * split.
        -- intros H. right. split; [reflexivity|]. apply Hr. exact H.
        -- intros [H|[_ H]]; [contradiction | apply Hr; exact H].
      * intros H. contradiction.
      * intros _. exact Hn.
    + cbn [fst snd]. split; [|split].
      * split; [discriminate|].
        intros [H|[H _]]; [contradiction | discriminate H].
      * intros H. contradiction.
      * intros _. exact Hn.
Qed.

Lemma ensure_running_outcomes_witness :
  (third_call 0 = Status 200
   \/ true = true /\ exists k, k < 15 /\ third_call (1 + k) = Status 200)
  /\ fst (ensure_ollama_running third_call true) = true.
Proof.
  assert (H : third_call 0 = Status 200
              \/ true = true
                 /\ exists k, k < 15 /\ third_call (1 + k) = Status 200).
  { right. split; [reflexivity|]. exists 1. split; [lia | reflexivity]. }
  split; [exact H|].
  exact (proj2 (proj1 (@ensure_running_outcomes third_call true)) H).
Defined.

(** ** The deployment to MongoDB *)

Import Deploy.

Lemma form_keeps_mongo_database (runs : list form_run) (s : session) :
  mongo_database (fold_left submit runs s) = mongo_database s.
Proof.
  revert s; induction runs as [|[choice [[[a b] c] d]] runs IH]; intros s;
    [reflexivity|].
  cbn [fold_left]. rewrite IH. destruct choice; reflexivity.
Qed.

(** Without [mongo_database] the connection string, when there is one,
    is the host text. *)
Lemma connection_string_without_database (s : session) (cs : str) :
  mongo_database s = None ->
  connection_string s = Ok cs ->
  mongo_host s = Some cs.
Proof.
  intros Hd. unfold connection_string.
  destruct (mongo_username s) as [username|]; [|discriminate].
  cbn [attr bind].
  assert (Hhost : (host <- attr (mongo_host s) ;; Ok host) = Ok cs ->
                  mongo_host s = Some cs).
  { destruct (mongo_host s) as [host|]; [|discriminate].
    cbn [attr bind]. congruence. }
  destruct (nonempty username); cbn [bind]; [|exact Hhost].
  destruct (mongo_password s) as [password|]; [|discriminate].
  cbn [attr bind]. destruct (nonempty password); [|exact Hhost].
  destruct (attr (mongo_host s)); [|discriminate].
  cbn [bind]. rewrite Hd. discriminate.
Qed.

Lemma no_database_no_deployment (connect : str -> bool)
      (driver_ok : list mongo_op -> mongo_op -> bool)
      (s : session) (schema : value) :
  mongo_database s = None ->
  get_mongo_connection connect s = (None, [MongoConnectionError])
  /\ create_mongo_collections connect driver_ok s schema
     = (false, [MongoConnectionError])
  \/ exists host,
       mongo_host s = Some host
       /\ connect host = true
       /\ get_mongo_connection connect s = (Some host, [])
       /\ create_mongo_collections connect driver_ok s schema
          = (false, [OperationError; CloseClient]).
Proof.
  intros Hd. unfold create_mongo_collections, get_mongo_connection.
  destruct (connection_string s) as [cs|] eqn:Ecs.
  - destruct (connect cs) eqn:Ec.
    + right. exists cs.
      split; [apply connection_string_without_database; assumption|].
      split; [exact Ec|]. split; [reflexivity|].
      rewrite Hd. reflexivity.
    + left. split; reflexivity.
  - left. split; reflexivity.
Qed.

(** X18.  The connection form never assigns [mongo_database], which
    [create_mongo_collections] reads before its first operation on a
    collection.  So after any runs of the form from an empty session
    state the function returns [False], for every schema and whatever
    the server would accept: either [get_mongo_connection] fails and
    reports it, or a client is opened with the host text alone, the read
    of [mongo_database] raises, the error is reported and the client is
    closed, with no [insert_one], [delete_many] or [create_index] in
    between. *)
Theorem mongo_deployment_never_succeeds (connect : str -> bool)
        (driver_ok : list mongo_op -> mongo_op -> bool)
        (runs : list form_run) (schema : value) :
  let s := fold_left submit runs fresh in
  get_mongo_connection connect s = (None, [MongoConnectionError])
  /\ create_mongo_collections connect driver_ok s schema
     = (false, [MongoConnectionError])
  \/ exists host,
       mongo_host s = Some host
       /\ connect host = true
       /\ get_mongo_connection connect s = (Some host, [])
       /\ create_mongo_collections connect driver_ok s schema
          = (false, [OperationError; CloseClient]).
Proof.
  cbv zeta. apply no_database_no_deployment.
  rewrite form_keeps_mongo_database. reflexivity.
Qed.

(** X19.  As long as [mongo_database] is unassigned,
    [get_mongo_connection] fails whenever a user name and a password are
    both given, and a client it returns was opened with the host text
    alone. *)
Theorem mongo_credentials_never_connect (connect : str -> bool)
        (s : session) :
  mongo_database s = None ->
  (forall username password,
      mongo_username s = Some username -> mongo_password s = Some password ->
      nonempty username = true -> nonempty password = true ->
      get_mongo_connection connect s = (None, [MongoConnectionError]))
  /\ (forall client events,
        get_mongo_connection connect s = (Some client, events) ->
        mongo_host s = Some client /\ connect client = true).
Proof.
  intros Hd. unfold get_mongo_connection, connection_string. split.
  - intros username password Hu Hp Hnu Hnp.
    rewrite Hu, Hp. cbn [attr bind]. rewrite Hnu. cbn [bind]. rewrite Hnp.
    destruct (attr (mongo_host s)); [|reflexivity].
    cbn [bind]. rewrite Hd. reflexivity.
  - intros client events.
    destruct (mongo_username s) as [username|]; [|discriminate].
    cbn [attr bind].
    assert (Hhost : forall r : result str,
              r = (host <- attr (mongo_host s) ;; Ok host) ->
              match r with
              | Ok cs => if connect cs then (Some cs, [])
                         else (None, [MongoConnectionError])
              | Raise _ => (None, [MongoConnectionError])
              end = (Some client, events) ->
              mongo_host s = Some client /\ connect client = true).
    { intros r -> H. destruct (mongo_host s) as [host|]; [|discriminate H].
      cbn [attr bind] in H. destruct (connect host) eqn:Ec; [|discriminate H].
      injection H as <- _. split; [reflexivity | exact Ec]. }
    destruct (nonempty username).
    + destruct (mongo_password s) as [password|]; [|discriminate].
      cbn [attr bind]. destruct (nonempty password).
      * destruct (attr (mongo_host s)); [|discriminate].
        cbn [bind]. rewrite Hd. discriminate.
      * apply Hhost. reflexivity.
    + cbn [bind]. apply Hhost. reflexivity.
Qed.

Lemma mongo_credentials_never_connect_witness :
  mongo_database
    (show_database_connection_form MongoDB (lit "localhost") (lit "u")
                                   (lit "p") [] fresh) = None
  /\ get_mongo_connection (fun _ => true)
       (show_database_connection_form MongoDB (lit "localhost") (lit "u")
                                      (lit "p") [] fresh)
     = (None, [MongoConnectionError]).
Proof.
  split; [reflexivity|].
  exact (proj1 (@mongo_credentials_never_connect (fun _ => true)
                  (show_database_connection_form MongoDB (lit "localhost")
                     (lit "u") (lit "p") [] fresh) eq_refl)
           (lit "u") (lit "p") eq_refl eq_refl eq_refl eq_refl).
Defined.

(** ** The deployment to MySQL *)

(** The loop when the server accepts every statement. *)
Lemma execute_all_accepted (accepts : list str -> str -> bool)
      (pieces done : list str) :
  (forall before q after,
      filter statement pieces = before ++ q :: after ->
      accepts (done ++ before) q = true) ->
  execute_all accepts pieces done
  = (true, done ++ filter statement pieces,
     map Execute (filter statement pieces)).
Proof.
  revert done; induction pieces as [|p m IH]; intros done H.
  - cbn. rewrite app_nil_r. reflexivity.
  - cbn [execute_all filter] in H |- *. fold (statement p) in H |- *.
    destruct (statement p) eqn:Es.
    + pose proof (H [] p (filter statement m) eq_refl) as Ha.
      rewrite app_nil_r in Ha. rewrite Ha.
      rewrite (IH (done ++ [p])).
      * rewrite <- app_assoc. reflexivity.
      * intros before q after Hf. rewrite <- app_assoc.
        apply (H (p :: before) q after). rewrite Hf. reflexivity.
    + apply IH. exact H.
Qed.

(** The loop when the server rejects a statement after it accepted the
    ones before. *)
Lemma execute_all_rejected (accepts : list str -> str -> bool)
      (pieces done before after : list str) (q : str) :
  filter statement pieces = before ++ q :: after ->
  (forall b' q' a',
      before = b' ++ q' :: a' -> accepts (done ++ b') q' = true) ->
  accepts (done ++ before) q = false ->
  execute_all accepts pieces done
  = (false, done ++ before, map Execute (before ++ [q])).
Proof.
  revert done before; induction pieces as [|p m IH];
    intros done before Hf Hb Hq.
  - cbn in Hf. destruct before; discriminate Hf.
  - cbn [execute_all filter] in Hf |- *. fold (statement p) in Hf |- *.
    destruct (statement p) eqn:Es.
    + destruct before as [|b before].
      * cbn [app] in Hf. injection Hf as -> _.
        rewrite app_nil_r in Hq |- *. rewrite Hq. reflexivity.
      * cbn [app] in Hf. injection Hf as -> Hf.
        pose proof (Hb [] b before eq_refl) as Ha.
        rewrite app_nil_r in Ha. rewrite Ha.
        rewrite (IH (done ++ [b]) before Hf).
        -- rewrite <- app_assoc. reflexivity.
        -- intros b' q' a' E. rewrite <- app_assoc.
           apply (Hb (b :: b') q' a'). rewrite E. reflexivity.
        -- rewrite <- app_assoc. exact Hq.
    + apply IH; assumption.
Qed.

(** X20.  After a successful connection, [execute_mysql_queries] sends
    the pieces of [queries] between semicolons that are not blank, in
    order and untrimmed.  When the server accepts them all it commits,
    and returns [True] exactly when the commit goes through.  When the
    server rejects one, that one is the last it sends: it does not
    commit, reports the error and returns [False].  In each case it
    closes the cursor and the connection at the end, if the connection
    still stands. *)
Theorem mysql_stops_at_first_rejection
        (connect : str -> str -> str -> str -> bool)
        (accepts : list str -> str -> bool) (commits : list str -> bool)
        (is_connected : bool) (s : session) (queries : str) :
  get_mysql_connection connect s = (Ok true, []) ->
  let stmts := filter statement (split (chr ";") queries) in
  let closing :=
    if is_connected then [CloseCursor; CloseConnection] else [] in
  let run :=
    execute_mysql_queries connect accepts commits is_connected s queries in
  ((forall before q after,
       stmts = before ++ q :: after -> accepts before q = true) ->
   run = (Ok (commits stmts),
          map Execute stmts
          ++ Commit :: (if commits stmts then [] else [QueryError])
          ++ closing))
  /\ (forall before q after,
        stmts = before ++ q :: after ->
        (forall b' q' a',
            before = b' ++ q' :: a' -> accepts b' q' = true) ->
        accepts before q = false ->
        run = (Ok false,
               map Execute (before ++ [q]) ++ QueryError :: closing)).
Proof.
  intros Hc. cbv zeta. unfold execute_mysql_queries. rewrite Hc.
  cbn [app]. split.
  - intros Hall.
    rewrite (@execute_all_accepted accepts (split (chr ";") queries) [])
      by exact Hall.
    cbn [app]. destruct (commits _); reflexivity.
  - intros before q after Hf Hb Hq.
    rewrite (@execute_all_rejected accepts (split (chr ";") queries) []
               before after q Hf Hb Hq).
    reflexivity.
Qed.

Lemma mysql_stops_at_first_rejection_witness :
  get_mysql_connection (fun _ _ _ _ => true) configured = (Ok true, [])
  /\ filter statement (split (chr ";") (lit "CREATE; ;DROP;INSERT"))
     = [lit "CREATE"] ++ lit "DROP" :: [lit "INSERT"]
  /\ rejects_drop [lit "CREATE"] (lit "DROP") = false
  /\ execute_mysql_queries (fun _ _ _ _ => true) rejects_drop
       (fun _ => true) true configured (lit "CREATE; ;DROP;INSERT")
     = (Ok false,
        map Execute ([lit "CREATE"] ++ [lit "DROP"])
        ++ QueryError :: [CloseCursor; CloseConnection]).
Proof.
  assert (Hc : get_mysql_connection (fun _ _ _ _ => true) configured
               = (Ok true, [])) by reflexivity.
  assert (Hf : filter statement
                 (split (chr ";") (lit "CREATE; ;DROP;INSERT"))
               = [lit "CREATE"] ++ lit "DROP" :: [lit "INSERT"])
    by (vm_compute; reflexivity).
  assert (Hq : rejects_drop [lit "CREATE"] (lit "DROP") = false)
    by (vm_compute; reflexivity).
  split; [exact Hc|]. split; [exact Hf|]. split; [exact Hq|].
  apply (proj2 (@mysql_stops_at_first_rejection (fun _ _ _ _ => true)
                  rejects_drop (fun _ => true) true configured
                  (lit "CREATE; ;DROP;INSERT") Hc)
           [lit "CREATE"] (lit "DROP") [lit "INSERT"] Hf); [|exact Hq].
  intros b' q' a' E. destruct b' as [|x b'].
  - injection E as <- _. vm_compute; reflexivity.
  - injection E as _ E. destruct b'; discriminate E.
Defined.

(** X21.  [execute_mysql_queries] lets [AttributeError] escape, before
    any contact with the server, when one of the four MySQL settings was
    never assigned; once the form has run with MySQL selected it returns
    a boolean. *)
Theorem mysql_needs_settings
        (connect : str -> str -> str -> str -> bool)
        (accepts : list str -> str -> bool) (commits : list str -> bool)
        (is_connected : bool) (s : session) (queries : str) :
  (mysql_host s = None \/ mysql_user s = None
   \/ mysql_password s = None \/ mysql_database s = None ->
   execute_mysql_queries connect accepts commits is_connected s queries
   = (Raise AttributeError, []))
  /\ (forall host user password database,
        exists returned events,
          execute_mysql_queries connect accepts commits is_connected
            (show_database_connection_form MySQL host user password
                                           database s)
            queries
          = (Ok returned, events)).
Proof.
  split.
  - intros H. unfold execute_mysql_queries, get_mysql_connection.
    destruct (mysql_host s); [|reflexivity].
    destruct (mysql_user s); [|reflexivity].
    destruct (mysql_password s); [|reflexivity].
    destruct (mysql_database s); [|reflexivity].
    destruct H as [H|[H|[H|H]]]; discriminate H.
  - intros host user password database.
    unfold execute_mysql_queries, get_mysql_connection.
    cbn [show_database_connection_form mysql_host mysql_user mysql_password
         mysql_database attr bind].
    destruct (connect host user password database);
      [|eexists _, _; reflexivity].
    destruct (execute_all accepts (split (chr ";") queries) [])
      as [[ok done] ex].
    destruct ok; [destruct (commits done)|]; eexists _, _; reflexivity.
Qed.

Lemma mysql_needs_settings_witness :
  mysql_host fresh = None
  /\ execute_mysql_queries (fun _ _ _ _ => true) rejects_drop
       (fun _ => true) true fresh (lit "CREATE")
     = (Raise AttributeError, []).
Proof.
  split; [reflexivity|].
  exact (proj1 (@mysql_needs_settings (fun _ _ _ _ => true) rejects_drop
                  (fun _ => true) true fresh (lit "CREATE"))
           (or_introl eq_refl)).
Defined.
